(** * sync_docs: mirroring a documentation site from its sitemap

    A shallow embedding of [sync_docs.py] and the properties of its three
    stages: reading the sitemap, filtering out translated pages, and the
    bounded download of the remaining pages.

    Text is a list of characters.  The network, the XML parser of the
    standard library and the faults of the disk are parameters of the
    environment; the file system is the working directory and a finite map
    from locations to nodes; a coroutine is a finite tree of events,
    interpreted either by one sequential schedule or by the interleaving of
    a pool of tasks. *)

From Stdlib Require Import Ascii String ZArith.
From stdpp Require Import base option list gmap strings.

Set Warnings "-clear-no-such-hyp,-register-all".

Local Open Scope list_scope.

(** ** Text *)

Abbreviation str := (list ascii).

(** A string literal of the source. *)
Definition lit (s : string) : str := list_ascii_of_string s.

(** [s.startswith(p)] *)
Fixpoint startswith (p s : str) : bool :=
  match p, s with
  | [], _ => true
  | _ :: _, [] => false
  | a :: p', b :: s' => if decide (a = b) then startswith p' s' else false
  end.

(** [s.find(sep)]: the lowest index at which [sep] occurs, [None] for -1. *)
Fixpoint find (sep s : str) : option nat :=
  if startswith sep s then Some 0
  else match s with
       | [] => None
       | _ :: s' => S <$> find sep s'
       end.

(** [sep in s] *)
Definition contains (sep s : str) : bool := bool_decide (is_Some (find sep s)).

(** [s.split(sep)] for a non-empty separator: cut at the first occurrence,
    go on after it.  Each round consumes at least one character, so
    [length s] rounds are enough ([split_from_fuel]).  Python raises
    [ValueError] on an empty separator; the program only splits on
    constants. *)
Fixpoint split_from (fuel : nat) (sep s : str) : list str :=
  match find sep s with
  | None => [s]
  | Some i =>
      match fuel with
      | 0 => [s]
      | S fuel' => take i s :: split_from fuel' sep (drop (i + length sep) s)
      end
  end.

Definition split (sep s : str) : list str := split_from (length s) sep s.

(** [parts[-1]] on a list of strings; [split] never returns an empty list. *)
Definition item_last (parts : list str) : str := default [] (last parts).

(** [s.lstrip(c)], [s.rstrip(c)] and [s.strip(c)] for a one-character set. *)
Fixpoint lstrip (c : ascii) (s : str) : str :=
  match s with
  | [] => []
  | a :: s' => if decide (a = c) then lstrip c s' else s
  end.

Definition rstrip (c : ascii) (s : str) : str := rev (lstrip c (rev s)).

Definition strip (c : ascii) (s : str) : str := rstrip c (lstrip c s).

Definition slash : ascii := "/"%char.

(** ** Regular expressions, as far as the language pattern needs them *)

Inductive regex : Type :=
| Bol                       (* ^ *)
| Chars (p : str)           (* a literal *)
| Or (r1 r2 : regex)        (* r1|r2 *)
| Then (r1 r2 : regex).     (* r1r2 *)

(** All the ways [r] matches at the head of [s], as the texts left over,
    in the order a backtracking matcher tries them.  [whole] is the
    subject, to tell where its beginning is. *)
Fixpoint rmatch (whole : str) (r : regex) (s : str) : list str :=
  match r with
  | Bol => if decide (length s = length whole) then [s] else []
  | Chars p => if startswith p s then [drop (length p) s] else []
  | Or r1 r2 => rmatch whole r1 s ++ rmatch whole r2 s
  | Then r1 r2 => rmatch whole r1 s ≫= rmatch whole r2
  end.

(** [re.match(r, s)] as a truth value. *)
Definition re_match (r : regex) (s : str) : bool :=
  match rmatch s r s with [] => false | _ :: _ => true end.

(** ** Constants of the program *)

Definition SITEMAP_URL : str := lit "https://code.claude.com/docs/sitemap.xml".
Definition CONCURRENT_REQUESTS : nat := 10.
Definition DOCS_MARKER : str := lit "/docs/".

(** [r"^(de|es|fr|id|it|ja|ko|pt|ru|zh-CN|zh-TW)/"] *)
Definition LANG_RE : regex :=
  Then Bol
    (Then (Or (Chars (lit "de")) (Or (Chars (lit "es")) (Or (Chars (lit "fr"))
          (Or (Chars (lit "id")) (Or (Chars (lit "it")) (Or (Chars (lit "ja"))
          (Or (Chars (lit "ko")) (Or (Chars (lit "pt")) (Or (Chars (lit "ru"))
          (Or (Chars (lit "zh-CN")) (Chars (lit "zh-TW"))))))))))))
          (Chars (lit "/"))).

(** [url.split("/docs/")[-1]] *)
Definition path_after_docs (url : str) : str := item_last (split DOCS_MARKER url).

(** ** Exceptions *)

(** The exceptions the program can meet, each with the text [str(e)] gives.
    All of them derive from [Exception]; interrupts and task cancellation
    are outside the model. *)
Inductive exn : Type :=
| ClientError (msg : str)         (* aiohttp.ClientError, TimeoutError, ... *)
| ParseError (msg : str)          (* xml.etree.ElementTree.ParseError *)
| FileExistsError (msg : str)
| FileNotFoundError (msg : str)
| NotADirectoryError (msg : str)
| IsADirectoryError (msg : str)
| OSError (msg : str)             (* any other error of the operating system *)
| UnicodeEncodeError (msg : str).

Definition exn_str (e : exn) : str :=
  match e with
  | ClientError m | ParseError m | FileExistsError m
  | FileNotFoundError m | NotADirectoryError m | IsADirectoryError m
  | OSError m | UnicodeEncodeError m => m
  end.

Inductive result (A : Type) : Type :=
| Ok (a : A)
| Raise (e : exn).
Arguments Ok {A} a.
Arguments Raise {A} e.

(** ** The sitemap document *)

(** An element of [xml.etree.ElementTree]: its tag in the [{namespace}name]
    form, its text ([None] when there is none) and its children. *)
Inductive Element : Type :=
| Elem (tag : str) (text : option str) (children : list Element).

Definition tag (e : Element) : str := match e with Elem t _ _ => t end.
Definition text (e : Element) : option str := match e with Elem _ t _ => t end.
Definition children (e : Element) : list Element :=
  match e with Elem _ _ cs => cs end.

(** [e.iter(t)]: [e] and the elements below it that carry the tag [t], in
    document order. *)
Fixpoint iter (t : str) (e : Element) : list Element :=
  match e with
  | Elem tg _ cs =>
      (if decide (tg = t) then [e] else []) ++ flat_map (iter t) cs
  end.

(** [root.findall(".//ns:loc", ns)]: the path selects, among what
    [root.iter(tag)] yields, the elements other than [root] itself. *)
Definition findall_descendants (t : str) (root : Element) : list Element :=
  flat_map (iter t) (children root).

Definition LOC_TAG : str :=
  lit "{http://www.sitemaps.org/schemas/sitemap/0.9}loc".

(** One round of the loop of lines 25-32. *)
Definition visit_loc (urls : list str) (loc : Element) : list str :=
  match text loc with
  | None => urls
  | Some url =>
      if bool_decide (url ≠ []) && contains DOCS_MARKER url then
        if negb (re_match LANG_RE (path_after_docs url))
        then urls ++ [url]
        else urls
      else urls
  end.

(** Lines 24-34: the list [urls] when the loop is over. *)
Definition english_urls (root : Element) : list str :=
  fold_left visit_loc (findall_descendants LOC_TAG root) [].

(** ** Paths *)

(** A [pathlib] path on POSIX: whether it is absolute, and its segments.
    [pathlib] keeps dot-dot segments as they are written; it is the file
    system that follows them. *)
Abbreviation path := (bool * list str)%type.

(** [Path(s)]: empty and [.] segments vanish. *)
Definition Path (s : str) : path :=
  (startswith [slash] s,
   filter (λ seg, seg ≠ [] ∧ seg ≠ lit ".") (split [slash] s)).

(** [base / s]: an absolute right operand replaces the left one. *)
Definition joinpath (base : path) (s : str) : path :=
  let p := Path s in
  if p.1 then p else (base.1, base.2 ++ p.2).

(** [p.parent] *)
Definition parent (p : path) : path := (p.1, removelast p.2).

(** ["/".join(segs)] *)
Fixpoint join_slash (segs : list str) : str :=
  match segs with
  | [] => []
  | [seg] => seg
  | seg :: rest => seg ++ slash :: join_slash rest
  end.

(** [str(p)] *)
Definition path_str (p : path) : str :=
  match p with
  | (true, segs) => slash :: join_slash segs
  | (false, []) => lit "."
  | (false, segs) => join_slash segs
  end.

Definition DOCS_DIR : path := Path (lit "docs").

(** ** The file system *)

Inductive node : Type :=
| Dir
| File (content : str).

Inductive errno : Type := ENOENT | ENOTDIR.

(** The file system as the process sees it: where its working directory
    is, and the nodes, each under its location, the names that lead to it
    from the root.  The root, the working directory and the directories
    above it are there without an entry.  Symbolic links and permissions
    are outside the model. *)
Record disk : Type := Disk {
  cwd : list str;
  nodes : gmap (list str) node
}.

Definition node_at (d : disk) (loc : list str) : option node :=
  if decide (loc `prefix_of` cwd d) then Some Dir else nodes d !! loc.

Definition DOTDOT : str := lit "..".

(** Where a segment leads from the directory at [cur]: a dot-dot to the
    directory above, the root being above itself, a name to the entry of
    that name. *)
Definition step_to (cur : list str) (seg : str) : list str :=
  if decide (seg = DOTDOT) then removelast cur else cur ++ [seg].

(** Path resolution, one segment at a time from the node [n] at [cur]: a
    segment under a regular file is [ENOTDIR], a segment that leads to
    nothing is [ENOENT]. *)
Fixpoint walk (d : disk) (cur : list str) (n : node) (rest : list str)
  : errno + (list str * node) :=
  match rest with
  | [] => inr (cur, n)
  | seg :: rest' =>
      match n with
      | File _ => inl ENOTDIR
      | Dir =>
          match node_at d (step_to cur seg) with
          | None => inl ENOENT
          | Some n' => walk d (step_to cur seg) n' rest'
          end
      end
  end.

(** The location and the node a path resolves to, from the root or from the
    working directory. *)
Definition locate (d : disk) (p : path) : errno + (list str * node) :=
  walk d (if p.1 then [] else cwd d) Dir p.2.

Definition stat (d : disk) (p : path) : errno + node :=
  match locate d p with
  | inl e => inl e
  | inr (_, n) => inr n
  end.

Definition put (loc : list str) (n : node) (d : disk) : disk :=
  Disk (cwd d) (<[loc := n]> (nodes d)).

(** Where a new entry for [p] goes: under the directory its parent resolves
    to, by its last segment. *)
Definition slot (d : disk) (p : path) : option (list str) :=
  match locate d (parent p), last p.2 with
  | inr (loc, Dir), Some name =>
      if decide (name = DOTDOT) then None else Some (loc ++ [name])
  | _, _ => None
  end.

Definition oserror (code : str) (p : path) : str :=
  code ++ lit ": '" ++ path_str p ++ lit "'".

Definition EEXIST_msg := oserror (lit "[Errno 17] File exists").
Definition ENOENT_msg := oserror (lit "[Errno 2] No such file or directory").
Definition ENOTDIR_msg := oserror (lit "[Errno 20] Not a directory").
Definition EISDIR_msg := oserror (lit "[Errno 21] Is a directory").

(** [os.mkdir(p)] *)
Definition os_mkdir (p : path) (d : disk) : result unit * disk :=
  match stat d p with
  | inr _ => (Raise (FileExistsError (EEXIST_msg p)), d)
  | inl ENOTDIR => (Raise (NotADirectoryError (ENOTDIR_msg p)), d)
  | inl ENOENT =>
      match slot d p with
      | Some loc => (Ok tt, put loc Dir d)
      | None => (Raise (FileNotFoundError (ENOENT_msg p)), d)
      end
  end.

(** [Path.mkdir(parents=parents, exist_ok=True)] on the path with segments
    [rev rsegs]: try [os.mkdir]; when that meets a missing parent and
    [parents] is set, make the parent this way first and try once more
    without [parents]; any other error is dropped when the path is a
    directory already. *)
Fixpoint mkdir_rev (parents abs : bool) (rsegs : list str)
    (fs : disk) : result unit * disk :=
  let p := (abs, rev rsegs) in
  match os_mkdir p fs with
  | (Ok u, fs') => (Ok u, fs')
  | (Raise (FileNotFoundError m), _) =>
      match rsegs with
      | [] => (Raise (FileNotFoundError m), fs)
      | _ :: rparent =>
          if parents then
            match mkdir_rev true abs rparent fs with
            | (Raise e, fs') => (Raise e, fs')
            | (Ok _, fs') =>
                match os_mkdir p fs' with
                | (Ok u, fs'') => (Ok u, fs'')
                | (Raise (FileNotFoundError m'), fs'') =>
                    (Raise (FileNotFoundError m'), fs'')
                | (Raise e, fs'') =>
                    match stat fs'' p with
                    | inr Dir => (Ok tt, fs'')
                    | _ => (Raise e, fs'')
                    end
                end
            end
          else (Raise (FileNotFoundError m), fs)
      end
  | (Raise e, _) =>
      match stat fs p with
      | inr Dir => (Ok tt, fs)
      | _ => (Raise e, fs)
      end
  end.

Definition mkdir (parents : bool) (p : path) (fs : disk)
  : result unit * disk :=
  mkdir_rev parents p.1 (rev p.2) fs.

(** [p.write_text(content, encoding="utf-8")]: open for writing, which
    makes the file or empties it, then encode and write.  Once the file is
    open the write can still go wrong: [fault] is then the exception and
    how many characters have reached the file, none when the text cannot
    be encoded. *)
Definition write_text (fault : option (exn * nat)) (p : path) (content : str)
    (d : disk) : result unit * disk :=
  let opened loc :=
    match fault with
    | None => (Ok tt, put loc (File content) d)
    | Some (e, n) => (Raise e, put loc (File (take n content)) d)
    end in
  match locate d p with
  | inr (_, Dir) => (Raise (IsADirectoryError (EISDIR_msg p)), d)
  | inr (loc, File _) => opened loc
  | inl ENOTDIR => (Raise (NotADirectoryError (ENOTDIR_msg p)), d)
  | inl ENOENT =>
      match slot d p with
      | Some loc => opened loc
      | None => (Raise (FileNotFoundError (ENOENT_msg p)), d)
      end
  end.

(** ** Coroutines *)

Record response : Type := Response {
  status : Z;                 (* resp.status *)
  body : result str           (* what [await resp.text()] gives *)
}.

(** What a coroutine asks of its surroundings, with the type of the answer.
    An operation that can raise answers with a [result]. *)
Inductive event : Type → Type :=
| Acquire : event unit                          (* entering [async with semaphore] *)
| Release : event unit                          (* leaving it *)
| Get (url : str) : event (result response)     (* [session.get(url)] *)
| ReadText (resp : response) : event (result str)
| FromString (text : str) : event (result Element)
| Mkdir (parents : bool) (p : path) : event (result unit)
| WriteText (p : path) (content : str) : event (result unit)
| Print (line : str) : event unit.

Inductive prog (A : Type) : Type :=
| Ret (a : A)
| Vis {X : Type} (e : event X) (k : X → prog A).
Arguments Ret {A} a.
Arguments Vis {A X} e k.

Fixpoint bind {A B : Type} (m : prog A) (f : A → prog B) : prog B :=
  match m with
  | Ret a => f a
  | Vis e k => Vis e (λ x, bind (k x) f)
  end.

Definition trigger {X : Type} (e : event X) : prog X := Vis e Ret.

#[global] Instance prog_ret : MRet prog := @Ret.
#[global] Instance prog_bind : MBind prog := λ A B f m, bind m f.

(** A statement that may raise, followed by the rest of its block. *)
Definition try_bind {A B : Type} (m : prog (result A))
    (f : A → prog (result B)) : prog (result B) :=
  r ← m; match r with Ok a => f a | Raise e => Ret (Raise e) end.

(** [try: m  except Exception as e: handler e] *)
Definition try_except {A : Type} (m : prog (result A)) (handler : exn → prog A)
  : prog A :=
  r ← m; match r with Ok a => Ret a | Raise e => handler e end.

Notation "x ←? m ; f" := (try_bind m (λ x, f))
  (at level 20, m at level 100, f at level 200, only parsing).

(** [str(n)] for a natural number. *)
Definition digit (d : nat) : ascii := ascii_of_nat (48 + d).

Fixpoint digits (fuel n : nat) (acc : str) : str :=
  match fuel with
  | 0 => acc
  | S fuel' =>
      let acc' := digit (n mod 10) :: acc in
      if decide (n / 10 = 0) then acc' else digits fuel' (n / 10) acc'
  end.

Definition str_of_nat (n : nat) : str := digits (S n) n [].

(** ** The program *)

(** Lines 18-34. *)
Definition fetch_sitemap : prog (result (list str)) :=
  resp ←? trigger (Get SITEMAP_URL);
  text ←? trigger (ReadText resp);
  root ←? trigger (FromString text);
  Ret (Ok (english_urls root)).

(** Line 40. *)
Definition markdown_url (url : str) : str := rstrip slash url ++ lit ".md".

(** Lines 47-51. *)
Definition doc_filepath (url : str) : path :=
  let rel := strip slash (path_after_docs url) in
  let rel := if decide (rel = []) then lit "index" else rel in
  joinpath DOCS_DIR (rel ++ lit ".md").

(** Line 59. *)
Definition error_line (url : str) (e : exn) : str :=
  lit "Error downloading " ++ url ++ lit ": " ++ exn_str e.

(** Lines 42-57, the block under [try]. *)
Definition download_try (url md_url : str) : prog (result (str * bool)) :=
  resp ←? trigger (Get md_url);
  if decide (status resp = 200%Z) then
    content ←? trigger (ReadText resp);
    let filepath := doc_filepath url in
    _ ←? trigger (Mkdir true (parent filepath));
    _ ←? trigger (WriteText filepath content);
    Ret (Ok (url, true))
  else Ret (Ok (url, false)).

(** Lines 37-60. *)
Definition download_doc (url : str) : prog (str * bool) :=
  trigger Acquire;;
  outcome ←
    (let md_url := markdown_url url in
     try_except (download_try url md_url)
       (λ e, trigger (Print (error_line url e));; Ret (url, false)));
  trigger Release;;
  Ret outcome.

(** Lines 65-71: what [main] does before the downloads start. *)
Definition main_head : prog (result (list str)) :=
  _ ←? trigger (Mkdir false DOCS_DIR);
  trigger (Print (lit "Fetching sitemap..."));;
  urls ←? fetch_sitemap;
  trigger (Print (lit "Found " ++ str_of_nat (length urls)
                    ++ lit " English docs"));;
  Ret (Ok urls).

(** Lines 85-87. *)
Fixpoint print_failed (results : list (str * bool)) : prog unit :=
  match results with
  | [] => Ret tt
  | (url, ok) :: rest =>
      (if negb ok then trigger (Print (lit "  - " ++ url)) else Ret tt);;
      print_failed rest
  end.

Definition count_if (P : bool → bool) (results : list (str * bool)) : nat :=
  sum_list ((λ _, 1) <$> filter (λ r, P r.2 = true) results).

(** Lines 78-87: the summary. *)
Definition main_tail (results : list (str * bool)) : prog unit :=
  let success := count_if id results in
  let failed := count_if negb results in
  trigger (Print (lit "Downloaded: " ++ str_of_nat success
                    ++ lit ", Failed: " ++ str_of_nat failed));;
  if decide (0 < failed) then
    trigger (Print (lit "Failed URLs:"));;
    print_failed results
  else Ret tt.

(** ** The surroundings *)

(** The network, the XML parser, and what goes wrong, if anything, while a
    text is written to a file that has been opened. *)
Record env : Type := Env {
  http : str → result response;
  fromstring : str → result Element;
  write_fault : path → str → option (exn * nat)
}.

Record world : Type := World {
  fs : disk;
  stdout : list str;          (* the lines printed so far *)
  requests : list str;        (* the URLs requested so far *)
  permits : nat               (* the value of the semaphore *)
}.

Definition set_fs (f : disk) (w : world) : world :=
  World f (stdout w) (requests w) (permits w).
Definition set_permits (n : nat) (w : world) : world :=
  World (fs w) (stdout w) (requests w) n.

(** The answer to an event and its effect; [None] when the caller has to
    wait, which only entering the semaphore at value 0 does. *)
Definition handle (E : env) {X : Type} (e : event X) (w : world)
  : option (X * world) :=
  match e in event X return option (X * world) with
  | Acquire =>
      match permits w with
      | 0 => None
      | S n => Some (tt, set_permits n w)
      end
  | Release => Some (tt, set_permits (S (permits w)) w)
  | Get url =>
      Some (http E url, World (fs w) (stdout w) (requests w ++ [url]) (permits w))
  | ReadText resp => Some (body resp, w)
  | FromString t => Some (fromstring E t, w)
  | Mkdir parents p =>
      let '(r, f) := mkdir parents p (fs w) in Some (r, set_fs f w)
  | WriteText p content =>
      let '(r, f) := write_text (write_fault E p content) p content (fs w) in
      Some (r, set_fs f w)
  | Print line =>
      Some (tt, World (fs w) (stdout w ++ [line]) (requests w) (permits w))
  end.

(** One coroutine run to its end with nothing else in between. *)
Fixpoint run {A : Type} (E : env) (p : prog A) (w : world) : option (A * world) :=
  match p with
  | Ret a => Some (a, w)
  | Vis e k =>
      match handle E e w with
      | None => None
      | Some (x, w') => run E (k x) w'
      end
  end.

(** ** The pool of downloads *)

(** A task of the pool: what is left of its coroutine, and how many slots
    of the semaphore it has entered and not left. *)
Record task : Type := Task {
  held : nat;
  code : prog (str * bool)
}.

Definition held_after {X : Type} (e : event X) (h : nat) : nat :=
  match e with
  | Acquire => S h
  | Release => pred h
  | _ => h
  end.

(** The next event of a task, when it need not wait. *)
Definition step_task (E : env) (t : task) (w : world) : option (task * world) :=
  match code t with
  | Ret _ => None
  | Vis e k =>
      match handle E e w with
      | None => None
      | Some (x, w') => Some (Task (held_after e (held t)) (k x), w')
      end
  end.

(** The event loop resumes task [i]; nothing happens when there is no such
    task, when it has returned, or when it has to wait. *)
Definition step_at (E : env) (s : list task * world) (i : nat)
  : list task * world :=
  match s.1 !! i with
  | None => s
  | Some t =>
      match step_task E t s.2 with
      | None => s
      | Some (t', w') => (<[i := t']> s.1, w')
      end
  end.

(** A schedule is the order in which the event loop resumes the tasks. *)
Definition schedule (E : env) (sched : list nat) (s : list task * world)
  : list task * world :=
  fold_left (step_at E) sched s.

(** Line 74. *)
Definition spawn (urls : list str) : list task :=
  (λ url, Task 0 (download_doc url)) <$> urls.

Definition finished (t : task) : option (str * bool) :=
  match code t with
  | Ret r => Some r
  | Vis _ _ => None
  end.

(** Line 76: the results of [gather], in the order of the tasks, once every
    task has returned. *)
Definition gathered (ts : list task) : option (list (str * bool)) :=
  mapM finished ts.

Definition holding (ts : list task) : nat :=
  length (filter (λ t, 0 < held t) ts).

(** [main] under a schedule of the downloads: the exception that ends it or
    its normal end, and the world it leaves; [None] when the schedule stops
    before every download has returned. *)
Definition main (E : env) (sched : list nat) (w0 : world)
  : option (result unit * world) :=
  match run E main_head w0 with
  | None => None
  | Some (Raise e, w1) => Some (Raise e, w1)
  | Some (Ok urls, w1) =>
      let '(ts, w2) :=
        schedule E sched (spawn urls, set_permits CONCURRENT_REQUESTS w1) in
      match gathered ts with
      | None => None
      | Some results =>
          match run E (main_tail results) w2 with
          | None => None
          | Some (_, w3) => Some (Ok tt, w3)
          end
      end
  end.

(** The exit status of the process. *)
Definition exit_status (r : result unit) : Z :=
  match r with
  | Ok _ => 0
  | Raise _ => 1
  end.

(** The schedule that runs the tasks one after the other. *)
Fixpoint gather_seq (E : env) (tasks : list (prog (str * bool))) (w : world)
  : option (list (str * bool) * world) :=
  match tasks with
  | [] => Some ([], w)
  | t :: rest =>
      match run E t w with
      | None => None
      | Some (r, w') =>
          match gather_seq E rest w' with
          | None => None
          | Some (rs, w'') => Some (r :: rs, w'')
          end
      end
  end.

Definition main_seq (E : env) (w0 : world) : option (result unit * world) :=
  match run E main_head w0 with
  | None => None
  | Some (Raise e, w1) => Some (Raise e, w1)
  | Some (Ok urls, w1) =>
      match gather_seq E (download_doc <$> urls)
              (set_permits CONCURRENT_REQUESTS w1) with
      | None => None
      | Some (results, w2) =>
          match run E (main_tail results) w2 with
          | None => None
          | Some (_, w3) => Some (Ok tt, w3)
          end
      end
  end.

(** ** Notions the statements are written in *)

(** [sep] occurs in [s] at index [i]. *)
Definition occurs_at (sep s : str) (i : nat) : Prop :=
  startswith sep (drop i s) = true.

(** No two occurrences of [sep] in [s] share a character. *)
Definition no_overlap (sep s : str) : Prop :=
  ∀ i j, occurs_at sep s i → occurs_at sep s j → i < j → i + length sep ≤ j.

(** [s.rfind(sep)]: the highest index at which [sep] occurs. *)
Fixpoint rfind (sep s : str) : option nat :=
  match s with
  | [] => if startswith sep [] then Some 0 else None
  | _ :: s' =>
      match rfind sep s' with
      | Some i => Some (S i)
      | None => if startswith sep s then Some 0 else None
      end
  end.

(** The text after the last occurrence of [sep], all of [s] without one. *)
Definition after_last (sep s : str) : str :=
  match rfind sep s with
  | Some i => drop (i + length sep) s
  | None => s
  end.

Definition LANG_CODES : list str :=
  lit <$> ["de"; "es"; "fr"; "id"; "it"; "ja"; "ko"; "pt"; "ru"; "zh-CN";
           "zh-TW"]%string.

(** [p1|p2|...|pn] for literals. *)
Fixpoint any_of (ps : list str) : regex :=
  match ps with
  | [] => Chars []
  | [p] => Chars p
  | p :: ps' => Or (Chars p) (any_of ps')
  end.

(** The first segment of a relative path: what stands before its first
    separator, when it has one. *)
Definition first_segment (p : str) : option str :=
  i ← find [slash] p; Some (take i p).

(** The first segment is a language code. *)
Definition language_page (p : str) : bool :=
  match first_segment p with
  | Some seg => bool_decide (seg ∈ LANG_CODES)
  | None => false
  end.

(** The filter in the words of the specification: a text is kept when it is
    not empty, holds the marker, and the first segment after the marker is
    no language code. *)
Definition retained (url : str) : bool :=
  bool_decide (url ≠ []) && contains DOCS_MARKER url
  && negb (language_page (path_after_docs url)).

(** The values [url] takes at line 26, round after round. *)
Definition loc_texts (root : Element) : list (option str) :=
  text <$> findall_descendants LOC_TAG root.

(** Those of them that are strings. *)
Definition strings_read (root : Element) : list str :=
  omap text (findall_descendants LOC_TAG root).

(** An element and all the elements below it, in document order. *)
Fixpoint preorder (e : Element) : list Element :=
  match e with
  | Elem _ _ cs => e :: flat_map preorder cs
  end.

(** The [<loc>] entries of a sitemap, in document order. *)
Definition loc_entries (root : Element) : list Element :=
  filter (λ e, tag e = LOC_TAG) (flat_map preorder (children root)).

(** The number of elements tagged [t] at [e] and below. *)
Fixpoint count_tag (t : str) (e : Element) : nat :=
  match e with
  | Elem tg _ cs =>
      (if decide (tg = t) then 1 else 0) + sum_list (count_tag t <$> cs)
  end.

(** The number of [<loc>] entries of a sitemap. *)
Definition count_loc (root : Element) : nat :=
  sum_list (count_tag LOC_TAG <$> children root).

(** What one download does to the file system, whether it succeeds and what
    it prints, computed at once. *)
Definition download_effect (E : env) (url : str) (f : disk)
  : bool * disk * list str :=
  match http E (markdown_url url) with
  | Raise e => (false, f, [error_line url e])
  | Ok resp =>
      if decide (status resp = 200%Z) then
        match body resp with
        | Raise e => (false, f, [error_line url e])
        | Ok content =>
            match mkdir true (parent (doc_filepath url)) f with
            | (Raise e, f1) => (false, f1, [error_line url e])
            | (Ok _, f1) =>
                match write_text (write_fault E (doc_filepath url) content)
                        (doc_filepath url) content f1 with
                | (Raise e, f2) => (false, f2, [error_line url e])
                | (Ok _, f2) => (true, f2, [])
                end
            end
        end
      else (false, f, [])
  end.

(** Every outcome the coroutine can return is about [url]. *)
Fixpoint returns (url : str) (p : prog (str * bool)) : Prop :=
  match p with
  | Ret r => r.1 = url
  | Vis e k => ∀ x, returns url (k x)
  end.

(** An event is in order for a task that holds [h] slots: it enters the
    semaphore only when it holds none, leaves it only when it holds one. *)
Definition sem_ok {X : Type} (e : event X) (h : nat) : Prop :=
  match e with
  | Acquire => h = 0
  | Release => h = 1
  | _ => True
  end.

(** A coroutine that holds [h] slots gives back, on every path, each slot
    it holds or takes, and holds at most one. *)
Fixpoint balanced {A : Type} (h : nat) (p : prog A) : Prop :=
  match p with
  | Ret _ => h = 0
  | Vis e k => sem_ok e h ∧ ∀ x, balanced (held_after e h) (k x)
  end.

(** No path of the coroutine has more than [n] events. *)
Fixpoint within {A : Type} (n : nat) (p : prog A) : Prop :=
  match p with
  | Ret _ => True
  | Vis e k =>
      match n with
      | 0 => False
      | S n' => ∀ x, within n' (k x)
      end
  end.

(** The accounts of the semaphore are in order: every task is balanced and
    holds at most one slot, and the slots held and the slots free add up to
    [limit]. *)
Definition pool_ok (limit : nat) (s : list task * world) : Prop :=
  Forall (λ t, balanced (held t) (code t) ∧ held t ≤ 1) s.1
  ∧ sum_list (held <$> s.1) + permits s.2 = limit.

(** Task by task, a bound on the events still to come. *)
Definition pool_within (ns : list nat) (ts : list task) : Prop :=
  Forall2 (λ n t, within n (code t)) ns ts.

(** Task by task, the address its outcome will be about. *)
Definition pool_returns (urls : list str) (ts : list task) : Prop :=
  Forall2 (λ url t, returns url (code t)) urls ts.

(** What the sitemap stage gives, computed at once. *)
Definition sitemap_result (E : env) : result (list str) :=
  match http E SITEMAP_URL with
  | Raise e => Raise e
  | Ok resp =>
      match body resp with
      | Raise e => Raise e
      | Ok text =>
          match fromstring E text with
          | Raise e => Raise e
          | Ok root => Ok (english_urls root)
          end
      end
  end.

(** What [main] does before the downloads, computed at once: the addresses
    or the exception, and the world then. *)
Definition head_effect (E : env) (w : world) : result (list str) * world :=
  match mkdir false DOCS_DIR (fs w) with
  | (Raise e, f) => (Raise e, set_fs f w)
  | (Ok _, f) =>
      let out := stdout w ++ [lit "Fetching sitemap..."] in
      let reqs := requests w ++ [SITEMAP_URL] in
      match sitemap_result E with
      | Raise e => (Raise e, World f out reqs (permits w))
      | Ok urls =>
          (Ok urls,
           World f
             (out ++ [lit "Found " ++ str_of_nat (length urls)
                      ++ lit " English docs"])
             reqs (permits w))
      end
  end.

(** The lines of the summary. *)
Definition summary_lines (results : list (str * bool)) : list str :=
  (lit "Downloaded: " ++ str_of_nat (count_if id results)
   ++ lit ", Failed: " ++ str_of_nat (count_if negb results))
  :: (if decide (0 < count_if negb results) then
        lit "Failed URLs:"
        :: ((λ r, lit "  - " ++ r.1) <$> filter (λ r, r.2 = false) results)
      else []).

(** The same surroundings, but for the status of the answer to the sitemap
    request. *)
Definition with_sitemap_status (st : Z) (E : env) : env :=
  Env (λ url,
         match http E url with
         | Ok resp =>
             if decide (url = SITEMAP_URL) then Ok (Response st (body resp))
             else Ok resp
         | Raise e => Raise e
         end)
      (fromstring E) (write_fault E).

(** What is in the file once [write_text] has opened it. *)
Definition written_text (fault : option (exn * nat)) (content : str) : str :=
  match fault with
  | None => content
  | Some (_, n) => take n content
  end.

(** The regular files of a file system, with their contents. *)
Definition files (f : disk) : gmap (list str) str :=
  omap (λ n, match n with File c => Some c | Dir => None end) (nodes f).

(** The downloads of a list of addresses, one after the other. *)
Fixpoint downloads_effect (E : env) (urls : list str) (f : disk)
  : list (str * bool) * disk * list str :=
  match urls with
  | [] => ([], f, [])
  | url :: rest =>
      let '(ok, f1, out) := download_effect E url f in
      let '(results, f2, outs) := downloads_effect E rest f1 in
      ((url, ok) :: results, f2, out ++ outs)
  end.

(** The download of [url] fails on the network side: the request raises,
    the status is not 200, or reading the body raises. *)
Definition transport_raises (E : env) (url : str) : Prop :=
  match http E (markdown_url url) with
  | Raise _ => True
  | Ok resp => status resp = 200%Z ∧ ∃ e, body resp = Raise e
  end.

Definition status_not_ok (E : env) (url : str) : Prop :=
  ∃ resp, http E (markdown_url url) = Ok resp ∧ status resp ≠ 200%Z.

(** The address an event requests, when it is a request. *)
Definition get_url {X : Type} (e : event X) : option str :=
  match e with
  | Get url => Some url
  | _ => None
  end.

(** On every path, the requests of the coroutine are [rs], in this order. *)
Fixpoint asks {A : Type} (rs : list str) (p : prog A) : Prop :=
  match p with
  | Ret _ => rs = []
  | Vis e k =>
      match get_url e with
      | Some url => ∃ rs', rs = url :: rs' ∧ ∀ x, asks rs' (k x)
      | None => ∀ x, asks rs (k x)
      end
  end.



(** Task by task, the requests still to come. *)
Definition pool_asks (rss : list (list str)) (ts : list task) : Prop :=
  Forall2 (λ rs t, asks rs (code t)) rss ts.


(** ** Sample data *)

Definition NS (name : string) : str :=
  lit "{http://www.sitemaps.org/schemas/sitemap/0.9}" ++ lit name.

Definition url_entry (loc : string) : Element :=
  Elem (NS "url") None [Elem (NS "loc") (Some (lit loc)) []].

(** The sitemap of the scenario of the specification. *)
Definition sample_sitemap : Element :=
  Elem (NS "urlset") None
    [url_entry "https://example.com/docs/overview";
     url_entry "https://example.com/docs/de/overview";
     url_entry "https://example.com/docs/build-a-cli"].

Definition sample_xml : str :=
  lit "<urlset xmlns='http://www.sitemaps.org/schemas/sitemap/0.9'>"
  ++ lit "<url><loc>https://example.com/docs/overview</loc></url>"
  ++ lit "<url><loc>https://example.com/docs/de/overview</loc></url>"
  ++ lit "<url><loc>https://example.com/docs/build-a-cli</loc></url>"
  ++ lit "</urlset>".

(** A server that answers the sitemap request with [sitemap_status] and the
    sample sitemap, serves the overview page and has no other page. *)
Definition sample_env (sitemap_status : Z) : env :=
  Env (λ url,
         if decide (url = SITEMAP_URL) then
           Ok (Response sitemap_status (Ok sample_xml))
         else if decide (url = lit "https://example.com/docs/overview.md") then
           Ok (Response 200 (Ok (lit "# Overview")))
         else Ok (Response 404 (Ok (lit "Not Found"))))
      (λ t, if decide (t = sample_xml) then Ok sample_sitemap
            else Raise (ParseError (lit "syntax error: line 1, column 0")))
      (λ _ _, None).

(** A sitemap with an entry whose [<loc/>] is empty. *)
Definition sitemap_with_empty_loc : Element :=
  Elem (NS "urlset") None
    [url_entry "https://example.com/docs/overview";
     Elem (NS "url") None [Elem (NS "loc") None []];
     url_entry "https://example.com/docs/de/overview"].

(** A sitemap whose elements carry no namespace. *)
Definition plain_sitemap : Element :=
  Elem (lit "urlset") None
    [Elem (lit "url") None
       [Elem (lit "loc") (Some (lit "https://example.com/docs/overview")) []]].

(** A server whose sitemap lists no page. *)
Definition empty_env : env :=
  Env (λ _, Ok (Response 200 (Ok (lit "<urlset/>"))))
      (λ _, Ok (Elem (NS "urlset") None []))
      (λ _ _, None).

(** The world a download leaves when run alone. *)
Definition after_download (E : env) (url : str) (w : world) : world :=
  match run E (download_doc url) w with
  | Some (_, w1) => w1
  | None => w
  end.

(** The world [main] leaves under a schedule. *)
Definition after_main (E : env) (sched : list nat) (w : world) : world :=
  match main E sched w with
  | Some (_, w1) => w1
  | None => w
  end.

(** A schedule that lets two downloads take turns. *)
Definition taking_turns : list nat := [0; 1; 1; 0; 0; 1; 0; 0; 0; 1; 1; 0].

(** A server that gives the sample sitemap and drops every other
    connection. *)
Definition offline_env : env :=
  Env (λ url,
         if decide (url = SITEMAP_URL) then Ok (Response 200 (Ok sample_xml))
         else Raise (ClientError (lit "Cannot connect to host")))
      (λ t, if decide (t = sample_xml) then Ok sample_sitemap
            else Raise (ParseError (lit "syntax error: line 1, column 0")))
      (λ _ _, None).

(** A server that has a page at every address. *)
Definition page_env : env :=
  Env (λ _, Ok (Response 200 (Ok (lit "# Page"))))
      (λ _, Raise (ParseError (lit "no element found: line 1, column 0")))
      (λ _ _, None).

(** The same server, and a disk with no room left: a file can be opened but
    nothing written to it. *)
Definition full_disk_env : env :=
  Env (http page_env) (fromstring page_env)
      (λ _ _, Some (OSError (lit "[Errno 28] No space left on device"), 0)).

(** An empty working directory. *)
Definition empty_dir : disk := Disk [lit "srv"] ∅.

(** A working directory where [docs] is a regular file. *)
Definition docs_is_file (content : str) : disk :=
  Disk [lit "srv"] {[ [lit "srv"; lit "docs"] := File content ]}.

(** A world with no file, nothing printed, nothing requested, and the
    semaphore as [main] creates it. *)
Definition fresh_world : world := World empty_dir [] [] CONCURRENT_REQUESTS.


(** * Properties *)

(** ** Text *)

Lemma startswith_prefix (p s : str) :
  startswith p s = true ↔ ∃ t, s = p ++ t.
Proof.
  revert s. induction p as [|a p IH]; intros s; simpl.
  - split; eauto.
  - destruct s as [|b s].
    + split; [done | intros [t Ht]; discriminate].
    + destruct (decide (a = b)) as [->|Hne].
      * rewrite IH. split; intros [t Ht]; exists t; simpl in *; congruence.
      * split; [done | intros [t Ht]; simpl in Ht; congruence].
Qed.

Lemma startswith_app (p t : str) : startswith p (p ++ t) = true.
Proof. apply startswith_prefix. eauto. Qed.

Lemma startswith_length (p s : str) :
  startswith p s = true → length p ≤ length s.
Proof.
  intros [t ->]%startswith_prefix. rewrite length_app. lia.
Qed.

Lemma occurs_at_cons (sep : str) (a : ascii) (s : str) (i : nat) :
  occurs_at sep (a :: s) (S i) ↔ occurs_at sep s i.
Proof. done. Qed.

Lemma find_Some (sep s : str) (i : nat) :
  find sep s = Some i →
  occurs_at sep s i ∧ ∀ j, j < i → ¬ occurs_at sep s j.
Proof.
  revert i. induction s as [|a s IH]; intros i; simpl.
  - destruct (startswith sep []) eqn:Hst; [|done].
    intros [= <-]. split; [done | lia].
  - destruct (startswith sep (a :: s)) eqn:Hst.
    + intros [= <-]. split; [done | lia].
    + destruct (find sep s) as [i'|] eqn:Hf; [|done].
      intros [= <-]. destruct (IH i' eq_refl) as [Hocc Hmin].
      split; [done|]. intros [|j] Hj.
      * unfold occurs_at. simpl. congruence.
      * rewrite occurs_at_cons. apply Hmin. lia.
Qed.

Lemma find_None (sep s : str) (j : nat) :
  find sep s = None → ¬ occurs_at sep s j.
Proof.
  revert j. induction s as [|a s IH]; intros j; simpl.
  - destruct (startswith sep []) eqn:Hst; [done|].
    intros _. unfold occurs_at. rewrite drop_nil. congruence.
  - destruct (startswith sep (a :: s)) eqn:Hst; [done|].
    destruct (find sep s) eqn:Hf; [done|]. intros _.
    destruct j as [|j].
    + unfold occurs_at. simpl. congruence.
    + rewrite occurs_at_cons. by apply IH.
Qed.

Lemma occurs_at_bound (sep s : str) (i : nat) :
  sep ≠ [] → occurs_at sep s i → i + length sep ≤ length s.
Proof.
  intros Hne Hocc. apply startswith_length in Hocc.
  rewrite length_drop in Hocc.
  destruct sep; [done|]. simpl in *. lia.
Qed.

Lemma find_is_Some (sep s : str) (j : nat) :
  occurs_at sep s j → is_Some (find sep s).
Proof.
  intros Hocc. destruct (find sep s) eqn:Hf; [eauto|].
  by destruct (find_None sep s j Hf).
Qed.

Lemma contains_spec (sep s : str) :
  contains sep s = true ↔ ∃ pre post, s = pre ++ sep ++ post.
Proof.
  unfold contains. rewrite bool_decide_eq_true. split.
  - intros [i Hi]. apply find_Some in Hi as [Hocc _].
    apply startswith_prefix in Hocc as [t Ht].
    exists (take i s), t. by rewrite <- Ht, take_drop.
  - intros (pre & post & ->). apply (find_is_Some _ _ (length pre)).
    unfold occurs_at. rewrite drop_app_length. apply startswith_app.
Qed.

(** *** Stripping *)

Lemma lstrip_spec (c : ascii) (s : str) :
  ∃ n, s = replicate n c ++ lstrip c s ∧ head (lstrip c s) ≠ Some c.
Proof.
  induction s as [|a s (n & Hs & Hh)]; simpl.
  - by exists 0.
  - destruct (decide (a = c)) as [->|Hne].
    + exists (S n). simpl. by rewrite <- Hs.
    + exists 0. simpl. split; [done | congruence].
Qed.

Lemma rev_reverse {A} (l : list A) : rev l = reverse l.
Proof. apply rev_alt. Qed.

Lemma last_rev_head {A} (l : list A) : last (rev l) = head l.
Proof. by rewrite rev_reverse, last_reverse. Qed.

Lemma rev_replicate {A} (n : nat) (x : A) : rev (replicate n x) = replicate n x.
Proof. rewrite rev_reverse. apply reverse_replicate. Qed.

Lemma rstrip_spec (c : ascii) (s : str) :
  ∃ n, s = rstrip c s ++ replicate n c ∧ last (rstrip c s) ≠ Some c.
Proof.
  unfold rstrip. destruct (lstrip_spec c (rev s)) as (n & Hs & Hh).
  exists n. split.
  - rewrite <- (rev_involutive s) at 1. rewrite Hs at 1.
    by rewrite rev_app_distr, rev_replicate.
  - by rewrite last_rev_head.
Qed.

Lemma lstrip_replicate (c : ascii) (n : nat) (t : str) :
  head t ≠ Some c → lstrip c (replicate n c ++ t) = t.
Proof.
  intros Ht. induction n as [|n IH]; simpl.
  - destruct t as [|a t]; simpl; [done|].
    destruct (decide (a = c)) as [->|]; [by destruct Ht | done].
  - by rewrite decide_True.
Qed.

(** The result of [rstrip] is the only way to cut off a run of [c] and be
    left with a text that does not end in [c]. *)
Lemma rstrip_unique (c : ascii) (s base : str) (n : nat) :
  s = base ++ replicate n c → last base ≠ Some c → rstrip c s = base.
Proof.
  intros -> Hlast. unfold rstrip.
  rewrite rev_app_distr, rev_replicate, lstrip_replicate.
  - apply rev_involutive.
  - by rewrite <- last_rev_head, rev_involutive.
Qed.

(** *** Splitting *)

Lemma find_nil (sep : str) : sep ≠ [] → find sep [] = None.
Proof. by destruct sep. Qed.

Lemma split_from_None (n : nat) (sep s : str) :
  find sep s = None → split_from n sep s = [s].
Proof. intros Hf. destruct n; cbn [split_from]; by rewrite Hf. Qed.

Lemma split_from_Some (n i : nat) (sep s : str) :
  find sep s = Some i →
  split_from (S n) sep s = take i s :: split_from n sep (drop (i + length sep) s).
Proof. intros Hf. cbn [split_from]. by rewrite Hf. Qed.

Lemma length_pos (sep : str) : sep ≠ [] → 0 < length sep.
Proof. destruct sep; [done | simpl; lia]. Qed.

Lemma split_from_fuel (n m : nat) (sep s : str) :
  sep ≠ [] → length s ≤ n → length s ≤ m →
  split_from n sep s = split_from m sep s.
Proof.
  intros Hsep. pose proof (length_pos sep Hsep). revert m s.
  induction n as [|n IH]; intros m s Hn Hm.
  - destruct s; [|simpl in Hn; lia].
    by rewrite !split_from_None by by apply find_nil.
  - destruct (find sep s) as [i|] eqn:Hf.
    + pose proof (find_Some _ _ _ Hf) as [Hocc _].
      apply occurs_at_bound in Hocc; [|done].
      destruct m as [|m]; [lia|].
      rewrite !(split_from_Some _ i) by done. f_equal.
      apply IH; rewrite length_drop; lia.
    + by rewrite !split_from_None.
Qed.

(** The equation [split] obeys: no fuel is left in sight. *)
Lemma split_unfold (sep s : str) :
  sep ≠ [] →
  split sep s =
    match find sep s with
    | None => [s]
    | Some i => take i s :: split sep (drop (i + length sep) s)
    end.
Proof.
  intros Hsep. pose proof (length_pos sep Hsep).
  unfold split. destruct (find sep s) as [i|] eqn:Hf.
  - pose proof (find_Some _ _ _ Hf) as [Hocc _].
    apply occurs_at_bound in Hocc; [|done].
    destruct (length s) as [|n] eqn:Hlen; [lia|].
    rewrite (split_from_Some _ i) by done. f_equal.
    apply split_from_fuel; [done | | done].
    rewrite length_drop. lia.
  - by apply split_from_None.
Qed.

Lemma split_from_nonempty (n : nat) (sep s : str) : split_from n sep s ≠ [].
Proof. destruct n; cbn [split_from]; by destruct (find sep s). Qed.

Lemma item_last_cons (x : str) (l : list str) :
  l ≠ [] → item_last (x :: l) = item_last l.
Proof. unfold item_last. by destruct l. Qed.

Lemma item_last_split (sep s : str) :
  sep ≠ [] →
  item_last (split sep s) =
    match find sep s with
    | None => s
    | Some i => item_last (split sep (drop (i + length sep) s))
    end.
Proof.
  intros Hsep. rewrite split_unfold by done.
  destruct (find sep s); [|done].
  apply item_last_cons, split_from_nonempty.
Qed.

Lemma occurs_at_drop (sep s : str) (n k : nat) :
  occurs_at sep (drop n s) k ↔ occurs_at sep s (n + k).
Proof. unfold occurs_at. by rewrite drop_drop. Qed.

(** Induction on the rounds of [split]. *)
Lemma split_rounds (sep : str) (P : str → Prop) :
  sep ≠ [] →
  (∀ s, find sep s = None → P s) →
  (∀ s i, find sep s = Some i → P (drop (i + length sep) s) → P s) →
  ∀ s, P s.
Proof.
  intros Hsep Hnone Hsome s.
  remember (length s) as n eqn:Hn. revert s Hn.
  induction n as [n IH] using lt_wf_ind. intros s ->.
  destruct (find sep s) as [i|] eqn:Hf; [|by apply Hnone].
  apply (Hsome s i Hf).
  pose proof (find_Some _ _ _ Hf) as [Hocc _].
  apply occurs_at_bound in Hocc; [|done].
  pose proof (length_pos sep Hsep).
  eapply IH; [|done]. rewrite length_drop. lia.
Qed.

(** The last piece is the end of the text, holds no separator, and comes
    right after one when the text has any. *)
Lemma item_last_split_spec (sep s : str) :
  sep ≠ [] →
  (∃ pre, s = pre ++ item_last (split sep s)
          ∧ (contains sep s = true → ∃ pre', pre = pre' ++ sep))
  ∧ contains sep (item_last (split sep s)) = false.
Proof.
  intros Hsep. revert s. apply (split_rounds sep); [done|..].
  - intros s Hf. rewrite item_last_split, Hf by done. split.
    + exists []. split; [done|]. unfold contains. rewrite Hf.
      rewrite bool_decide_eq_true. by intros [? ?].
    + unfold contains. rewrite Hf. apply bool_decide_eq_false. by intros [? ?].
  - intros s i Hf [(pre & Hpre & Hsepre) Hno].
    rewrite item_last_split, Hf by done. split; [|done].
    pose proof (find_Some _ _ _ Hf) as [Hocc _].
    apply startswith_prefix in Hocc as [t Ht].
    assert (drop (i + length sep) s = t) as Hrest.
    { rewrite <- drop_drop, Ht. apply drop_app_length. }
    exists (take i s ++ sep ++ pre). split.
    + rewrite <- !app_assoc, <- Hpre, Hrest, <- Ht. by rewrite take_drop.
    + intros _. destruct (contains sep (drop (i + length sep) s)) eqn:Hc.
      * destruct (Hsepre eq_refl) as [pre' ->].
        exists (take i s ++ sep ++ pre'). by rewrite <- !app_assoc.
      * assert (pre = []) as ->.
        { apply (f_equal length) in Hpre. rewrite length_app in Hpre.
          assert (item_last (split sep (drop (i + length sep) s))
                  = drop (i + length sep) s) as Heq.
          { rewrite item_last_split by done.
            destruct (find sep (drop (i + length sep) s)) eqn:Hf'; [|done].
            unfold contains in Hc. rewrite Hf' in Hc.
            apply bool_decide_eq_false in Hc. destruct Hc. eauto. }
          rewrite Heq in Hpre. destruct pre; [done | simpl in Hpre; lia]. }
        exists (take i s). by rewrite app_nil_r.
Qed.

(** *** The last occurrence *)

Lemma rfind_spec (sep s : str) :
  sep ≠ [] →
  match rfind sep s with
  | Some i => occurs_at sep s i ∧ ∀ j, occurs_at sep s j → j ≤ i
  | None => ∀ j, ¬ occurs_at sep s j
  end.
Proof.
  intros Hsep. induction s as [|a s IH]; cbn [rfind].
  - destruct sep; [done|]. simpl. intros j. unfold occurs_at.
    by rewrite drop_nil.
  - destruct (rfind sep s) as [i|].
    + destruct IH as [Hocc Hmax]. split; [done|].
      intros [|j] Hj; [lia|]. apply occurs_at_cons, Hmax in Hj. lia.
    + destruct (startswith sep (a :: s)) eqn:Hst.
      * split; [done|]. intros [|j] Hj; [lia|].
        apply occurs_at_cons in Hj. by destruct (IH j).
      * intros [|j] Hj.
        -- unfold occurs_at in Hj. simpl in Hj. congruence.
        -- apply occurs_at_cons in Hj. by destruct (IH j).
Qed.

Lemma rfind_max (sep s : str) (j : nat) :
  sep ≠ [] → occurs_at sep s j → (∀ j', occurs_at sep s j' → j' ≤ j) →
  rfind sep s = Some j.
Proof.
  intros Hsep Hocc Hmax. pose proof (rfind_spec sep s Hsep) as Hr.
  destruct (rfind sep s) as [i|]; [|by destruct (Hr j)].
  destruct Hr as [Hi Hle]. f_equal.
  apply Hle in Hocc. apply Hmax in Hi. lia.
Qed.

Lemma no_overlap_drop (sep s : str) (n : nat) :
  no_overlap sep s → no_overlap sep (drop n s).
Proof.
  intros Hno i j Hi Hj Hlt. apply occurs_at_drop in Hi, Hj.
  pose proof (Hno _ _ Hi Hj). lia.
Qed.

(** Without overlapping separators, the last piece of [split] is the text
    after the last separator. *)
Lemma item_last_split_after_last (sep s : str) :
  sep ≠ [] → no_overlap sep s →
  item_last (split sep s) = after_last sep s.
Proof.
  intros Hsep. revert s. apply (split_rounds sep (λ s, no_overlap sep s → _));
    [done|..].
  - intros s Hf _. rewrite item_last_split, Hf by done.
    unfold after_last. pose proof (rfind_spec sep s Hsep) as Hr.
    destruct (rfind sep s) as [i|]; [|done].
    destruct Hr as [Hocc _]. by destruct (find_None sep s i Hf).
  - intros s i Hf IH Hno. rewrite item_last_split, Hf by done.
    rewrite IH by by apply no_overlap_drop. clear IH.
    pose proof (find_Some _ _ _ Hf) as [Hi Hmin].
    unfold after_last at 1.
    pose proof (rfind_spec sep (drop (i + length sep) s) Hsep) as Hr.
    destruct (rfind sep (drop (i + length sep) s)) as [k|].
    + destruct Hr as [Hk Hmax]. apply occurs_at_drop in Hk.
      unfold after_last. rewrite (rfind_max sep s (i + length sep + k)); [|done..|].
      * rewrite drop_drop. f_equal. lia.
      * intros j Hj. destruct (decide (j < i + length sep)) as [Hlt|Hge].
        { lia. }
        specialize (Hmax (j - (i + length sep))).
        rewrite occurs_at_drop in Hmax.
        replace (i + length sep + (j - (i + length sep))) with j in Hmax by lia.
        specialize (Hmax Hj). lia.
    + unfold after_last. rewrite (rfind_max sep s i); [done..|].
      intros j Hj. destruct (decide (j ≤ i)) as [|Hgt]; [done|].
      assert (i + length sep ≤ j) as Hle by (apply Hno; [done..|lia]).
      destruct (Hr (j - (i + length sep))).
      apply occurs_at_drop. by replace (i + length sep + (j - (i + length sep)))
        with j by lia.
Qed.

(** *** The language pattern *)

Lemma LANG_RE_codes :
  LANG_RE = Then Bol (Then (any_of LANG_CODES) (Chars [slash])).
Proof. reflexivity. Qed.

Lemma startswith_app_split (p q s : str) :
  startswith (p ++ q) s = startswith p s && startswith q (drop (length p) s).
Proof.
  revert s. induction p as [|a p IH]; intros s; simpl; [done|].
  destruct s as [|b s]; [done|]. by destruct (decide (a = b)).
Qed.

Lemma rmatch_any_of (whole : str) (ps : list str) (s r : str) :
  ps ≠ [] →
  r ∈ rmatch whole (any_of ps) s
  ↔ ∃ p, p ∈ ps ∧ startswith p s = true ∧ r = drop (length p) s.
Proof.
  intros Hps. induction ps as [|p ps IH]; [done|].
  assert (r ∈ rmatch whole (Chars p) s
          ↔ startswith p s = true ∧ r = drop (length p) s) as Hone.
  { simpl. destruct (startswith p s).
    - rewrite list_elem_of_singleton. naive_solver.
    - rewrite elem_of_nil. naive_solver. }
  destruct ps as [|p' ps].
  - cbn [any_of]. rewrite Hone. setoid_rewrite list_elem_of_singleton.
    naive_solver.
  - change (any_of (p :: p' :: ps)) with (Or (Chars p) (any_of (p' :: ps))).
    cbn [rmatch]. rewrite elem_of_app, IH by done. rewrite Hone.
    setoid_rewrite (elem_of_cons (p' :: ps)). naive_solver.
Qed.

Lemma matched_iff (l : list str) :
  match l with [] => false | _ :: _ => true end = true ↔ ∃ r, r ∈ l.
Proof.
  destruct l as [|x l]; split; try done.
  - intros [r Hr]. by apply elem_of_nil in Hr.
  - intros _. exists x. by left.
Qed.

Lemma re_match_codes (ps : list str) (s : str) :
  ps ≠ [] →
  re_match (Then Bol (Then (any_of ps) (Chars [slash]))) s = true
  ↔ ∃ p, p ∈ ps ∧ startswith (p ++ [slash]) s = true.
Proof.
  intros Hps. unfold re_match. rewrite matched_iff. cbn [rmatch].
  rewrite decide_True by done. split.
  - intros [r (s1 & Hr & ->%list_elem_of_singleton)%list_elem_of_bind].
    apply list_elem_of_bind in Hr as (r1 & Hr & Hr1).
    apply rmatch_any_of in Hr1 as (p & Hp & Hst & ->); [|done].
    exists p. split; [done|].
    rewrite startswith_app_split, Hst. cbn [andb].
    destruct (startswith [slash] (drop (length p) s)); [done|].
    by apply elem_of_nil in Hr.
  - intros (p & Hp & Hst). rewrite startswith_app_split in Hst.
    apply andb_true_iff in Hst as [Hst Hsl].
    exists (drop 1 (drop (length p) s)).
    apply list_elem_of_bind. exists s. split; [|by left].
    apply list_elem_of_bind. exists (drop (length p) s). split.
    + rewrite Hsl. by left.
    + apply rmatch_any_of; [done|]. eauto.
Qed.

Lemma find_slash_segment (c t : str) :
  slash ∉ c → find [slash] (c ++ slash :: t) = Some (length c).
Proof.
  induction c as [|a c IH]; intros Hc.
  - reflexivity.
  - apply not_elem_of_cons in Hc as [Hne Hc].
    cbn [app find startswith]. rewrite decide_False by done.
    by rewrite IH.
Qed.

Lemma startswith_first_segment (c p : str) :
  slash ∉ c →
  startswith (c ++ [slash]) p = true ↔ first_segment p = Some c.
Proof.
  intros Hc. unfold first_segment. split.
  - intros [t ->]%startswith_prefix. rewrite <- app_assoc. simpl.
    rewrite find_slash_segment by done. simpl.
    by rewrite take_app_length.
  - destruct (find [slash] p) as [i|] eqn:Hf; [|done]. simpl.
    intros [= <-]. apply find_Some in Hf as [Hocc _].
    apply startswith_prefix in Hocc as [t Ht].
    apply startswith_prefix. exists t.
    by rewrite <- app_assoc, <- Ht, take_drop.
Qed.

Lemma LANG_CODES_no_slash : Forall (λ c, slash ∉ c) LANG_CODES.
Proof. apply (bool_decide_unpack _). by vm_compute. Qed.

Lemma language_page_spec (p : str) :
  language_page p = true ↔ ∃ c, c ∈ LANG_CODES ∧ first_segment p = Some c.
Proof.
  unfold language_page. destruct (first_segment p) as [seg|].
  - rewrite bool_decide_eq_true. naive_solver.
  - naive_solver.
Qed.

(** The pattern matches exactly the paths whose first segment is a
    language code. *)
Lemma re_match_language_page (p : str) :
  re_match LANG_RE p = language_page p.
Proof.
  apply eq_true_iff_eq.
  rewrite LANG_RE_codes, re_match_codes, language_page_spec by done.
  pose proof LANG_CODES_no_slash as Hno. rewrite Forall_forall in Hno.
  split; intros (c & Hc & H); exists c; (split; [done|]);
    by apply startswith_first_segment; [apply Hno|].
Qed.

(** ** The sitemap *)

Lemma Element_rect_children (P : Element → Prop) :
  (∀ tg tx cs, Forall P cs → P (Elem tg tx cs)) → ∀ e, P e.
Proof.
  intros Hstep. fix IH 1. intros [tg tx cs]. apply Hstep.
  induction cs as [|c cs IHcs]; constructor; [apply IH | apply IHcs].
Qed.

Lemma filter_flat_map {A B} (P : B → Prop) `{!∀ x, Decision (P x)}
    (f : A → list B) (l : list A) :
  filter P (flat_map f l) = flat_map (λ x, filter P (f x)) l.
Proof.
  induction l as [|x l IH]; simpl; [done|]. by rewrite filter_app, IH.
Qed.

Lemma flat_map_Forall_ext {A B} (f g : A → list B) (l : list A) :
  Forall (λ x, f x = g x) l → flat_map f l = flat_map g l.
Proof. induction 1 as [|x l Hx _ IH]; simpl; [done|]. by rewrite Hx, IH. Qed.

Lemma iter_preorder (t : str) (e : Element) :
  iter t e = filter (λ e, tag e = t) (preorder e).
Proof.
  induction e as [tg tx cs IH] using Element_rect_children.
  cbn [iter preorder]. rewrite filter_cons. cbn [tag].
  rewrite filter_flat_map, (flat_map_Forall_ext _ _ _ IH).
  by destruct (decide (tg = t)).
Qed.

Lemma length_flat_map {A B} (f : A → list B) (l : list A) :
  length (flat_map f l) = sum_list (length ∘ f <$> l).
Proof.
  induction l as [|x l IH]; simpl; [done|]. by rewrite length_app, IH.
Qed.

Lemma length_iter (t : str) (e : Element) :
  length (iter t e) = count_tag t e.
Proof.
  induction e as [tg tx cs IH] using Element_rect_children.
  cbn [iter count_tag]. rewrite length_app, length_flat_map. f_equal.
  - by destruct (decide (tg = t)).
  - f_equal. induction IH as [|c cs Hc _ IHcs]; [done|].
    rewrite !fmap_cons. by f_equal.
Qed.

(** The loop of lines 24-32 is a filter. *)
Lemma visit_loc_retained (urls : list str) (loc : Element) :
  visit_loc urls loc
  = urls ++ filter (λ url, retained url = true) (option_list (text loc)).
Proof.
  unfold visit_loc, retained. destruct (text loc) as [url|]; simpl.
  - rewrite filter_cons, filter_nil, re_match_language_page.
    destruct (bool_decide (url ≠ []) && contains DOCS_MARKER url); simpl.
    + destruct (negb (language_page (path_after_docs url))); simpl;
        [done | by rewrite app_nil_r].
    + by rewrite app_nil_r.
  - by rewrite app_nil_r.
Qed.

Lemma fold_visit_loc (locs : list Element) (urls : list str) :
  fold_left visit_loc locs urls
  = urls ++ filter (λ url, retained url = true) (omap text locs).
Proof.
  revert urls. induction locs as [|loc locs IH]; intros urls; simpl.
  - by rewrite app_nil_r.
  - rewrite IH, visit_loc_retained, <- app_assoc. f_equal.
    destruct (text loc) as [url|]; simpl; [|done].
    rewrite !filter_cons, filter_nil. by destruct (decide _).
Qed.

(** ** One download *)

Ltac run_step :=
  cbn -[mkdir write_text error_line markdown_url doc_filepath parent
        str_of_nat english_urls lit].

(** Run alone, a download is [download_effect]: one request, the effect on
    the files, at most one line printed, and the slot given back. *)
Lemma run_download_doc (E : env) (url : str) (w : world) (n : nat) :
  permits w = S n →
  run E (download_doc url) w =
    let '(ok, f, out) := download_effect E url (fs w) in
    Some ((url, ok),
          World f (stdout w ++ out) (requests w ++ [markdown_url url]) (S n)).
Proof.
  intros Hn. unfold download_doc, download_try, download_effect.
  run_step. rewrite Hn. run_step.
  destruct (http E (markdown_url url)) as [resp|e]; run_step.
  - destruct (decide (status resp = 200%Z)); run_step.
    + destruct (body resp) as [content|e0]; run_step.
      * destruct (mkdir true (parent (doc_filepath url)) (fs w))
          as [[[]|e1] f1]; run_step.
        -- destruct (write_text _ (doc_filepath url) content f1)
             as [[[]|e2] f2]; run_step; by rewrite ?app_nil_r.
        -- done.
      * done.
    + by rewrite app_nil_r.
  - done.
Qed.

(** ** The file system *)

Lemma walk_app (d : disk) (cur : list str) (n : node) (r1 r2 : list str) :
  walk d cur n (r1 ++ r2) =
    match walk d cur n r1 with
    | inl e => inl e
    | inr (loc, n') => walk d loc n' r2
    end.
Proof.
  revert cur n. induction r1 as [|seg r1 IH]; intros cur n; simpl; [done|].
  destruct n; [|done].
  destruct (node_at d (step_to cur seg)) as [n'|]; [|done].
  apply IH.
Qed.

(** Resolving a path is resolving its parent, then one step. *)
Lemma locate_snoc (d : disk) (abs : bool) (segs : list str) (x : str) :
  locate d (abs, segs ++ [x]) =
    match locate d (abs, segs) with
    | inl e => inl e
    | inr (_, File _) => inl ENOTDIR
    | inr (loc, Dir) =>
        match node_at d (step_to loc x) with
        | None => inl ENOENT
        | Some n => inr (step_to loc x, n)
        end
    end.
Proof.
  unfold locate. simpl. rewrite walk_app.
  by destruct (walk d _ Dir segs) as [e|[loc [|c]]].
Qed.

Lemma parent_snoc (abs : bool) (segs : list str) (x : str) :
  parent (abs, segs ++ [x]) = (abs, segs).
Proof. unfold parent. simpl. by rewrite removelast_last. Qed.

Lemma slot_snoc (d : disk) (abs : bool) (segs : list str) (x : str) :
  slot d (abs, segs ++ [x]) =
    match locate d (abs, segs) with
    | inr (loc, Dir) =>
        if decide (x = DOTDOT) then None else Some (step_to loc x)
    | _ => None
    end.
Proof.
  unfold slot. rewrite parent_snoc. simpl. rewrite last_snoc.
  destruct (locate d (abs, segs)) as [e|[loc [|c]]]; try done.
  unfold step_to. by destruct (decide (x = DOTDOT)).
Qed.

Lemma node_at_put_ne (d : disk) (k loc : list str) (m : node) :
  loc ≠ k → node_at (put k m d) loc = node_at d loc.
Proof. intros Hne. unfold node_at, put. simpl. by rewrite lookup_insert_ne. Qed.

Lemma node_at_put_eq (d : disk) (k : list str) (m : node) :
  node_at d k ≠ Some Dir → node_at (put k m d) k = Some m.
Proof.
  unfold node_at, put. simpl. destruct (decide (k `prefix_of` cwd d)); [done|].
  intros _. by rewrite lookup_insert_eq.
Qed.

Lemma node_at_nodes (d : disk) (k : list str) (n : node) :
  node_at d k = Some n → n ≠ Dir → nodes d !! k = Some n.
Proof.
  unfold node_at. destruct (decide (k `prefix_of` cwd d)); [|done].
  by intros [= <-].
Qed.

Lemma node_at_None (d : disk) (k : list str) :
  node_at d k = None → nodes d !! k = None.
Proof. unfold node_at. by destruct (decide (k `prefix_of` cwd d)). Qed.

(** A node put where no directory is leaves the way to every directory as
    it was. *)
Lemma walk_put (d : disk) (k : list str) (m : node) (cur : list str)
    (n : node) (rest loc : list str) :
  node_at d k ≠ Some Dir →
  walk d cur n rest = inr (loc, Dir) →
  walk (put k m d) cur n rest = inr (loc, Dir).
Proof.
  intros Hk. revert cur n.
  induction rest as [|seg rest IH]; intros cur n; simpl; [done|].
  destruct n; [|done].
  destruct (node_at d (step_to cur seg)) as [n'|] eqn:Hn; [|done].
  intros Hw. destruct (decide (step_to cur seg = k)) as [Heq|Hne].
  - rewrite Heq in Hn. destruct n' as [|c]; [by rewrite Hn in Hk|].
    by destruct rest.
  - rewrite node_at_put_ne, Hn by done. by apply IH.
Qed.

(** A node put at the end of a path is what the path resolves to. *)
Lemma locate_put (d : disk) (abs : bool) (segs : list str) (x : str)
    (l0 : list str) (m : node) :
  locate d (abs, segs) = inr (l0, Dir) →
  node_at d (step_to l0 x) ≠ Some Dir →
  locate (put (step_to l0 x) m d) (abs, segs ++ [x])
  = inr (step_to l0 x, m).
Proof.
  intros Hpar Hk. rewrite locate_snoc.
  unfold locate in *. simpl in *.
  rewrite (walk_put _ _ _ _ _ _ _ Hk Hpar).
  by rewrite node_at_put_eq.
Qed.

(** What [write_text] does: nothing when the file cannot be opened;
    otherwise it leaves, where the path resolves to, a file with the text,
    or with what had been written of it when the write went wrong. *)
Lemma write_text_cases (fault : option (exn * nat)) (p : path)
    (content : str) (f : disk) :
  (∃ e, write_text fault p content f = (Raise e, f))
  ∨ ∃ loc,
      write_text fault p content f
      = (match fault with None => Ok tt | Some (e, _) => Raise e end,
         put loc (File (written_text fault content)) f)
      ∧ node_at f loc ≠ Some Dir
      ∧ locate (put loc (File (written_text fault content)) f) p
        = inr (loc, File (written_text fault content)).
Proof.
  unfold write_text. destruct p as [abs segs].
  destruct segs as [|x segs _] using rev_ind; [left; by eexists|].
  rewrite slot_snoc, locate_snoc.
  destruct (locate f (abs, segs)) as [[]|[l0 [|c]]] eqn:Hpar;
    try (left; by eexists).
  assert (node_at f (step_to l0 x) ≠ Some Dir →
          ∃ loc,
            match fault with
            | Some (e, n) =>
                (Raise e, put (step_to l0 x) (File (take n content)) f)
            | None => (Ok tt, put (step_to l0 x) (File content) f)
            end
            = (match fault with None => Ok tt | Some (e, _) => Raise e end,
               put loc (File (written_text fault content)) f)
            ∧ node_at f loc ≠ Some Dir
            ∧ locate (put loc (File (written_text fault content)) f)
                (abs, segs ++ [x])
              = inr (loc, File (written_text fault content))) as Hopen.
  { intros Hk. exists (step_to l0 x). split; [by destruct fault as [[e n]|]|].
    split; [done|]. by apply locate_put. }
  destruct (node_at f (step_to l0 x)) as [[|c]|] eqn:Hf.
  - left. by eexists.
  - right. by apply Hopen.
  - destruct (decide (x = DOTDOT)) as [|Hx]; [left; by eexists|].
    right. by apply Hopen.
Qed.

(** After [write_text] the path resolves to a file with the text written. *)
Lemma write_text_locate (fault : option (exn * nat)) (p : path)
    (content : str) (f f' : disk) :
  write_text fault p content f = (Ok tt, f') →
  fault = None ∧ ∃ loc, locate f' p = inr (loc, File content).
Proof.
  destruct (write_text_cases fault p content f)
    as [[e ->]|(loc & -> & _ & Hloc)]; [done|].
  destruct fault as [[e n]|]; [done|]. intros [= <-]. eauto.
Qed.

Lemma write_text_stat (fault : option (exn * nat)) (p : path) (content : str)
    (f f' : disk) :
  write_text fault p content f = (Ok tt, f') →
  stat f' p = inr (File content).
Proof.
  intros Hwr. destruct (write_text_locate _ _ _ _ _ Hwr) as (_ & loc & Hloc).
  unfold stat. by rewrite Hloc.
Qed.

(** A path that resolves lies under a directory. *)
Lemma stat_parent (f : disk) (p : path) (n : node) :
  stat f p = inr n → stat f (parent p) = inr Dir.
Proof.
  unfold stat. destruct p as [abs segs].
  destruct segs as [|x segs _] using rev_ind; [done|].
  rewrite parent_snoc, locate_snoc.
  by destruct (locate f (abs, segs)) as [[]|[l0 [|c]]].
Qed.

(** What is there under a path that resolves to a regular file. *)
Lemma locate_File_nodes (f : disk) (p : path) (loc : list str) (c : str) :
  locate f p = inr (loc, File c) → nodes f !! loc = Some (File c).
Proof.
  destruct p as [abs segs].
  destruct segs as [|x segs _] using rev_ind; [done|].
  rewrite locate_snoc.
  destruct (locate f (abs, segs)) as [[]|[l0 [|c']]]; try done.
  destruct (node_at f (step_to l0 x)) as [n|] eqn:Hn; [|done].
  intros [= <- ->]. by apply node_at_nodes.
Qed.

Lemma gather_seq_downloads (E : env) (urls : list str) (w : world) (n : nat) :
  permits w = S n →
  gather_seq E (download_doc <$> urls) w =
    let '(results, f, outs) := downloads_effect E urls (fs w) in
    Some (results,
          World f (stdout w ++ outs) (requests w ++ (markdown_url <$> urls))
            (S n)).
Proof.
  revert w. induction urls as [|url urls IH]; intros w Hn.
  - simpl. rewrite !app_nil_r, <- Hn. by destruct w.
  - rewrite fmap_cons. cbn [gather_seq downloads_effect].
    rewrite (run_download_doc E url w n Hn).
    destruct (download_effect E url (fs w)) as [[ok f1] out].
    rewrite IH by done. cbn [fs stdout requests].
    destruct (downloads_effect E urls f1) as [[results f2] outs].
    by rewrite <- !app_assoc.
Qed.

Lemma downloads_effect_app (E : env) (us1 us2 : list str) (f : disk) :
  downloads_effect E (us1 ++ us2) f =
    let '(rs1, f1, outs1) := downloads_effect E us1 f in
    let '(rs2, f2, outs2) := downloads_effect E us2 f1 in
    (rs1 ++ rs2, f2, outs1 ++ outs2).
Proof.
  revert f. induction us1 as [|u us1 IH]; intros f; simpl.
  - by destruct (downloads_effect E us2 f) as [[rs2 f2] outs2].
  - destruct (download_effect E u f) as [[ok f1] out]. rewrite IH.
    destruct (downloads_effect E us1 f1) as [[rs1 f1'] outs1].
    destruct (downloads_effect E us2 f1') as [[rs2 f2] outs2].
    by rewrite <- app_assoc.
Qed.

(** A download that fails on the network side leaves the files alone. *)
Lemma download_effect_status (E : env) (url : str) (f : disk) :
  status_not_ok E url → download_effect E url f = (false, f, []).
Proof.
  intros (resp & Hget & Hst). unfold download_effect. rewrite Hget.
  by rewrite decide_False.
Qed.

Lemma download_effect_raises (E : env) (url : str) (f : disk) :
  transport_raises E url →
  ∃ e, download_effect E url f = (false, f, [error_line url e]).
Proof.
  unfold transport_raises, download_effect.
  destruct (http E (markdown_url url)) as [resp|e]; [|by eauto].
  intros [Hst [e He]]. rewrite decide_True, He by done. eauto.
Qed.

(** *** Where a page goes *)

Lemma strip_spec (c : ascii) (s : str) :
  ∃ a b, s = replicate a c ++ strip c s ++ replicate b c
         ∧ head (strip c s) ≠ Some c ∧ last (strip c s) ≠ Some c.
Proof.
  unfold strip. destruct (lstrip_spec c s) as (a & Hs & Hh).
  destruct (rstrip_spec c (lstrip c s)) as (b & Hl & Hlast).
  exists a, b. split; [by rewrite <- Hl|]. split; [|done].
  destruct (rstrip c (lstrip c s)) as [|x r] eqn:Hr; [done|].
  rewrite Hl in Hh. by simpl in *.
Qed.

Lemma startswith_head (c : ascii) (s : str) :
  startswith [c] s = true ↔ head s = Some c.
Proof.
  destruct s as [|a s]; simpl; [done|].
  destruct (decide (c = a)); naive_solver.
Qed.

(** The destination is a relative path under the output directory. *)
Lemma doc_filepath_spec (url : str) :
  ∃ a b rel,
    path_after_docs url = replicate a slash ++ rel ++ replicate b slash
    ∧ head rel ≠ Some slash ∧ last rel ≠ Some slash
    ∧ doc_filepath url =
        (false,
         lit "docs"
         :: (Path ((if decide (rel = []) then lit "index" else rel)
                   ++ lit ".md")).2).
Proof.
  destruct (strip_spec slash (path_after_docs url)) as (a & b & Hs & Hh & Hl).
  exists a, b, (strip slash (path_after_docs url)).
  repeat split; [done..|].
  unfold doc_filepath, joinpath.
  set (rel := if decide (strip slash (path_after_docs url) = [])
              then lit "index" else strip slash (path_after_docs url)).
  assert ((Path (rel ++ lit ".md")).1 = false) as ->; [|done].
  unfold Path. cbn [fst]. apply not_true_is_false.
  rewrite startswith_head. unfold rel.
  destruct (decide _) as [|Hne]; [done|].
  by destruct (strip slash (path_after_docs url)).
Qed.

(** ** The pool of downloads *)

Ltac each_answer :=
  repeat first
    [ progress run_step
    | split
    | done
    | match goal with
      | |- ∀ x : result _, _ => intros [?|?]
      | |- ∀ x : unit, _ => intros []
      | |- context [decide (?P)] => destruct (decide P)
      end ].

Lemma download_doc_returns (url : str) : returns url (download_doc url).
Proof. unfold download_doc, download_try. each_answer. Qed.

Lemma download_doc_balanced (url : str) : balanced 0 (download_doc url).
Proof. unfold download_doc, download_try. each_answer. Qed.

Lemma download_doc_within (url : str) : within 7 (download_doc url).
Proof. unfold download_doc, download_try. each_answer. Qed.

Lemma handle_permits (E : env) {X : Type} (e : event X) (w w' : world)
    (x : X) (h : nat) :
  sem_ok e h → h ≤ 1 → handle E e w = Some (x, w') →
  held_after e h + permits w' = h + permits w ∧ held_after e h ≤ 1.
Proof.
  destruct e; simpl; intros Hok Hh Hhandle; simplify_eq; simpl; try lia.
  - destruct (permits w) as [|n] eqn:Hn; simplify_eq. simpl. lia.
  - destruct (mkdir parents p (fs w)). simplify_eq. simpl. lia.
  - destruct (write_text _ p content (fs w)). simplify_eq. simpl. lia.
Qed.

(** Only entering the semaphore can make a task wait. *)
Lemma handle_is_Some (E : env) {X : Type} (e : event X) (w : world) (h : nat) :
  sem_ok e h → (h = 0 → 0 < permits w) → is_Some (handle E e w).
Proof.
  destruct e; simpl; intros Hok Hfree; eauto.
  - destruct (permits w); [lia | eauto].
  - destruct (mkdir parents p (fs w)). eauto.
  - destruct (write_text _ p content (fs w)). eauto.
Qed.

Lemma sum_list_insert {A} (f : A → nat) (l : list A) (i : nat) (x y : A) :
  l !! i = Some x →
  sum_list (f <$> <[i := y]> l) + f x = sum_list (f <$> l) + f y.
Proof.
  revert i. induction l as [|a l IH]; intros [|i] Hi; simplify_eq/=.
  - lia.
  - specialize (IH i Hi). lia.
Qed.

Lemma step_task_inv (E : env) (t t1 : task) (w w1 : world) :
  step_task E t w = Some (t1, w1) →
  ∃ X (e : event X) k x,
    code t = Vis e k ∧ handle E e w = Some (x, w1)
    ∧ t1 = Task (held_after e (held t)) (k x).
Proof.
  unfold step_task. destruct (code t) as [r|X e k]; [done|].
  destruct (handle E e w) as [[x w2]|] eqn:Hh; [|done].
  intros [= <- <-]. by exists X, e, k, x.
Qed.

Lemma step_at_cases (E : env) (s : list task * world) (i : nat) :
  step_at E s i = s
  ∨ ∃ t t1 w1, s.1 !! i = Some t ∧ step_task E t s.2 = Some (t1, w1)
               ∧ step_at E s i = (<[i := t1]> s.1, w1).
Proof.
  unfold step_at. destruct (s.1 !! i) as [t|] eqn:Hi; [|by left].
  destruct (step_task E t s.2) as [[t1 w1]|] eqn:Hst; [|by left].
  right. by exists t, t1, w1.
Qed.

Lemma step_at_pool_ok (E : env) (limit : nat) (s : list task * world) (i : nat) :
  pool_ok limit s → pool_ok limit (step_at E s i).
Proof.
  intros [Hbal Hsum].
  destruct (step_at_cases E s i) as [->|(t & t1 & w1 & Hi & Hst & ->)]; [done|].
  apply step_task_inv in Hst as (X & e & k & x & Hcode & Hh & ->).
  pose proof (Forall_lookup_1 _ _ _ _ Hbal Hi) as [Ht Hle].
  rewrite Hcode in Ht. destruct Ht as [Hok Hk].
  destruct (handle_permits E e _ _ x _ Hok Hle Hh) as [Hacc Hle1].
  split; simpl.
  - apply Forall_insert; [done|]. simpl. auto.
  - pose proof (sum_list_insert held s.1 i t
                  (Task (held_after e (held t)) (k x)) Hi) as Hins.
    simpl in Hins. lia.
Qed.

Lemma schedule_pool_ok (E : env) (limit : nat) (sched : list nat)
    (s : list task * world) :
  pool_ok limit s → pool_ok limit (schedule E sched s).
Proof.
  revert s. induction sched as [|i sched IH]; intros s Hs; [done|].
  apply IH. by apply step_at_pool_ok.
Qed.

Lemma spawn_pool_ok (urls : list str) (w : world) :
  pool_ok (permits w) (spawn urls, w).
Proof.
  split; simpl.
  - apply Forall_fmap, Forall_forall. intros url _. simpl.
    split; [apply download_doc_balanced | lia].
  - induction urls as [|url urls IH]; simpl; [done|]. apply IH.
Qed.

Lemma holding_sum (ts : list task) :
  Forall (λ t, held t ≤ 1) ts → holding ts = sum_list (held <$> ts).
Proof.
  unfold holding. induction 1 as [|t ts Ht _ IH]; [done|].
  rewrite filter_cons, fmap_cons. simpl.
  destruct (decide (0 < held t)); simpl; lia.
Qed.

Lemma schedule_app (E : env) (a b : list nat) (s : list task * world) :
  schedule E (a ++ b) s = schedule E b (schedule E a s).
Proof. apply fold_left_app. Qed.

Lemma step_at_length (E : env) (s : list task * world) (i : nat) :
  length (step_at E s i).1 = length s.1.
Proof.
  destruct (step_at_cases E s i) as [->|(t & t1 & w1 & _ & _ & ->)]; [done|].
  apply length_insert.
Qed.

Lemma schedule_length (E : env) (sched : list nat) (s : list task * world) :
  length (schedule E sched s).1 = length s.1.
Proof.
  revert s. induction sched as [|i sched IH]; intros s; [done|].
  simpl. fold (schedule E sched (step_at E s i)).
  by rewrite IH, step_at_length.
Qed.

(** *** Each task answers for its own address *)

Lemma step_at_returns (E : env) (urls : list str) (s : list task * world)
    (i : nat) :
  pool_returns urls s.1 → pool_returns urls (step_at E s i).1.
Proof.
  intros Hret.
  destruct (step_at_cases E s i) as [->|(t & t1 & w1 & Hi & Hst & ->)]; [done|].
  apply step_task_inv in Hst as (X & e & k & x & Hcode & Hh & ->).
  destruct (Forall2_lookup_r _ _ _ _ _ Hret Hi) as (url & Hurl & Ht).
  rewrite <- (list_insert_id urls i url Hurl).
  apply Forall2_insert; [done|]. simpl. rewrite Hcode in Ht. apply Ht.
Qed.

Lemma schedule_returns (E : env) (urls : list str) (sched : list nat)
    (s : list task * world) :
  pool_returns urls s.1 → pool_returns urls (schedule E sched s).1.
Proof.
  revert s. induction sched as [|i sched IH]; intros s Hs; [done|].
  apply IH. by apply step_at_returns.
Qed.

Lemma spawn_returns (urls : list str) : pool_returns urls (spawn urls).
Proof.
  apply Forall2_fmap_r, Forall_Forall2_diag, Forall_forall.
  intros url _. apply download_doc_returns.
Qed.

Lemma gathered_returns (urls : list str) (ts : list task)
    (results : list (str * bool)) :
  pool_returns urls ts → gathered ts = Some results → results.*1 = urls.
Proof.
  unfold gathered. rewrite mapM_Some. intros Hret Hres.
  revert urls Hret. induction Hres as [|t r ts rs Hfin _ IH];
    intros urls Hret; inversion Hret as [|url ? urls' ? Hr Hrest]; subst;
    [done|].
  rewrite fmap_cons. f_equal; [|by apply IH].
  unfold finished in Hfin. destruct (code t); [|done].
  by injection Hfin as <-.
Qed.

(** *** Every run comes to its end *)

Lemma mapM_None_inv {A B} (f : A → option B) (l : list A) :
  mapM f l = None → ∃ i x, l !! i = Some x ∧ f x = None.
Proof.
  induction l as [|a l IH]; [done|]. cbn [mapM].
  destruct (f a) as [b|] eqn:Hfa; simpl.
  - destruct (mapM f l) as [bs|]; [done|]. intros _.
    destruct (IH eq_refl) as (i & x & Hi & Hx). by exists (S i), x.
  - intros _. by exists 0, a.
Qed.

(** While a download is unfinished, some task can take a step. *)
Lemma pool_progress (E : env) (limit : nat) (s : list task * world) :
  pool_ok limit s → 0 < limit → gathered s.1 = None →
  ∃ i t t1 w1, s.1 !! i = Some t ∧ step_task E t s.2 = Some (t1, w1).
Proof.
  intros [Hbal Hsum] Hlimit Hnone.
  assert (∀ i t, s.1 !! i = Some t → (held t = 0 → 0 < permits s.2) →
                 finished t = None →
                 ∃ i t t1 w1, s.1 !! i = Some t
                              ∧ step_task E t s.2 = Some (t1, w1)) as Hgo.
  { intros i t Hi Hfree Hfin.
    pose proof (Forall_lookup_1 _ _ _ _ Hbal Hi) as [Ht _].
    unfold finished in Hfin. unfold step_task.
    destruct (code t) as [r|X e k] eqn:Hcode; [done|].
    destruct Ht as [Hok _].
    destruct (handle_is_Some E e s.2 (held t) Hok Hfree) as [[x w1] Hh].
    exists i, t. rewrite Hcode, Hh. eauto. }
  destruct (decide (Exists (λ t, held t = 1) s.1)) as [Hex|Hnex].
  - apply Exists_exists in Hex as (t & Hin & Hheld).
    apply list_elem_of_lookup in Hin as [i Hi].
    apply (Hgo i t Hi); [lia|].
    pose proof (Forall_lookup_1 _ _ _ _ Hbal Hi) as [Ht _].
    unfold finished. destruct (code t); [simpl in Ht; lia | done].
  - apply mapM_None_inv in Hnone as (i & t & Hi & Hfin).
    apply (Hgo i t Hi); [|done]. intros _.
    assert (sum_list (held <$> s.1) = 0) as Hzero; [|lia].
    apply not_Exists_Forall in Hnex; [|apply _].
    clear -Hbal Hnex. induction s.1 as [|t ts IH]; [done|].
    inversion Hbal as [|?? [_ Hle] Hbal']; inversion Hnex; simplify_eq/=.
    rewrite IH by done. lia.
Qed.

Lemma step_task_within (E : env) (n : nat) (t t1 : task) (w w1 : world) :
  within n (code t) → step_task E t w = Some (t1, w1) →
  ∃ n', n = S n' ∧ within n' (code t1).
Proof.
  intros Hn (X & e & k & x & Hcode & _ & ->)%step_task_inv.
  rewrite Hcode in Hn. destruct n as [|n']; [done|].
  exists n'. split; [done|]. apply Hn.
Qed.

Lemma step_at_within (E : env) (ns : list nat) (s : list task * world)
    (i : nat) :
  pool_within ns s.1 →
  step_at E s i = s
  ∨ ∃ ns', pool_within ns' (step_at E s i).1 ∧ sum_list ns' < sum_list ns.
Proof.
  intros Hns.
  destruct (step_at_cases E s i) as [->|(t & t1 & w1 & Hi & Hst & ->)];
    [by left | right].
  destruct (Forall2_lookup_r _ _ _ _ _ Hns Hi) as (n & Hn & Ht).
  destruct (step_task_within E n t t1 _ _ Ht Hst) as (n' & -> & Ht1).
  exists (<[i := n']> ns). split.
  - by apply Forall2_insert.
  - pose proof (sum_list_insert id ns i (S n') n' Hn) as Hsum.
    rewrite !list_fmap_id in Hsum. simpl in Hsum. lia.
Qed.

Lemma schedule_within (E : env) (sched : list nat) (ns : list nat)
    (s : list task * world) :
  pool_within ns s.1 → ∃ ns', pool_within ns' (schedule E sched s).1.
Proof.
  revert ns s. induction sched as [|i sched IH]; intros ns s Hns; [by eauto|].
  simpl. fold (schedule E sched (step_at E s i)).
  destruct (step_at_within E ns s i Hns) as [->|(ns' & Hns' & _)]; by eauto.
Qed.

Lemma spawn_within (urls : list str) :
  pool_within (replicate (length urls) 7) (spawn urls).
Proof.
  induction urls as [|url urls IH]; constructor; [|done].
  apply download_doc_within.
Qed.

(** From a pool in order, every download can be brought to its end. *)
Lemma pool_completes (E : env) (limit m : nat) (ns : list nat)
    (s : list task * world) :
  sum_list ns ≤ m → pool_ok limit s → 0 < limit → pool_within ns s.1 →
  ∃ more results, gathered (schedule E more s).1 = Some results.
Proof.
  revert ns s. induction m as [|m IH]; intros ns s Hm Hok Hlimit Hns;
    (destruct (gathered s.1) as [results|] eqn:Hg;
       [by exists [], results|]);
    destruct (pool_progress E limit s Hok Hlimit Hg)
      as (i & t & t1 & w1 & Hi & Hst);
    destruct (step_at_within E ns s i Hns) as [Hsame|(ns' & Hns' & Hlt)].
  - unfold step_at in Hsame. rewrite Hi, Hst in Hsame.
    destruct (Forall2_lookup_r _ _ _ _ _ Hns Hi) as (n & Hn & Ht).
    destruct (step_task_within E n t t1 _ _ Ht Hst) as (n' & -> & _).
    pose proof (sum_list_insert id ns i (S n') 0 Hn) as Hsum.
    rewrite !list_fmap_id in Hsum. simpl in Hsum. lia.
  - lia.
  - unfold step_at in Hsame. rewrite Hi, Hst in Hsame.
    destruct (Forall2_lookup_r _ _ _ _ _ Hns Hi) as (n & Hn & Ht).
    destruct (step_task_within E n t t1 _ _ Ht Hst) as (n' & -> & Ht1).
    destruct (IH (<[i := n']> ns) (step_at E s i)) as (more & results & Hdone).
    + pose proof (sum_list_insert id ns i (S n') n' Hn) as Hsum.
      rewrite !list_fmap_id in Hsum. simpl in Hsum. lia.
    + by apply step_at_pool_ok.
    + done.
    + unfold step_at. rewrite Hi, Hst. by apply Forall2_insert.
    + by exists (i :: more), results.
  - destruct (IH ns' (step_at E s i)) as (more & results & Hdone);
      [lia | by apply step_at_pool_ok | done..|].
    by exists (i :: more), results.
Qed.

(** Whatever the event loop has done so far, it can go on until every
    download has returned. *)
Lemma schedule_completes (E : env) (limit : nat) (urls : list str)
    (w : world) (sched : list nat) :
  0 < limit →
  ∃ more results,
    gathered (schedule E (sched ++ more) (spawn urls, set_permits limit w)).1
    = Some results.
Proof.
  intros Hlimit.
  destruct (schedule_within E sched _ (spawn urls, set_permits limit w)
              (spawn_within urls)) as [ns Hns].
  destruct (pool_completes E limit (sum_list ns) ns
              (schedule E sched (spawn urls, set_permits limit w)))
    as (more & results & Hdone); [done| |done..|].
  - apply schedule_pool_ok, (spawn_pool_ok urls (set_permits limit w)).
  - exists more, results. by rewrite schedule_app.
Qed.

(** ** The stages of [main] *)

Lemma run_fetch_sitemap (E : env) (w : world) :
  run E fetch_sitemap w =
    Some (sitemap_result E,
          World (fs w) (stdout w) (requests w ++ [SITEMAP_URL]) (permits w)).
Proof.
  unfold fetch_sitemap, sitemap_result. run_step.
  destruct (http E SITEMAP_URL) as [resp|e]; run_step; [|done].
  destruct (body resp) as [text|e]; run_step; [|done].
  by destruct (fromstring E text) as [root|e].
Qed.

Lemma run_bind {A B} (E : env) (m : prog A) (f : A → prog B) (w : world) :
  run E (bind m f) w =
    match run E m w with
    | Some (a, w') => run E (f a) w'
    | None => None
    end.
Proof.
  revert w. induction m as [a|X e k IH]; intros w; simpl; [done|].
  destruct (handle E e w) as [[x w']|]; [apply IH | done].
Qed.

Lemma run_main_head (E : env) (w : world) :
  run E main_head w = Some (head_effect E w).
Proof.
  unfold main_head, head_effect, try_bind. run_step.
  destruct (mkdir false DOCS_DIR (fs w)) as [[[]|e] f]; run_step; [|done].
  unfold sitemap_result.
  destruct (http E SITEMAP_URL) as [resp|e]; run_step; [|done].
  destruct (body resp) as [text|e]; run_step; [|done].
  by destruct (fromstring E text) as [root|e].
Qed.

Lemma run_print_failed (E : env) (results : list (str * bool)) (w : world) :
  run E (print_failed results) w =
    Some (tt,
          World (fs w)
            (stdout w
             ++ ((λ r, lit "  - " ++ r.1) <$> filter (λ r, r.2 = false) results))
            (requests w) (permits w)).
Proof.
  revert w. induction results as [|[url ok] results IH]; intros w.
  - simpl. rewrite app_nil_r. by destruct w.
  - cbn [print_failed]. rewrite filter_cons. cbn [snd].
    destruct ok; run_step; rewrite IH; cbn [fs stdout requests permits].
    + by rewrite decide_False by done.
    + rewrite decide_True by done. by rewrite fmap_cons, <- app_assoc.
Qed.

Lemma run_main_tail (E : env) (results : list (str * bool)) (w : world) :
  run E (main_tail results) w =
    Some (tt,
          World (fs w) (stdout w ++ summary_lines results) (requests w)
            (permits w)).
Proof.
  unfold main_tail, summary_lines. run_step.
  destruct (decide (0 < count_if negb results)); run_step.
  - rewrite run_print_failed. cbn [fs stdout requests permits].
    by rewrite <- !app_assoc.
  - done.
Qed.

(** *** One after the other is a schedule *)

Lemma schedule_cons (E : env) (i : nat) (sched : list nat)
    (s : list task * world) :
  schedule E (i :: sched) s = schedule E sched (step_at E s i).
Proof. done. Qed.

Lemma run_as_schedule (E : env) (i : nat) (p : prog (str * bool)) :
  ∀ (h : nat) (ts : list task) (w w1 : world) (r : str * bool),
    ts !! i = Some (Task h p) → run E p w = Some (r, w1) →
    ∃ k h1, schedule E (replicate k i) (ts, w)
            = (<[i := Task h1 (Ret r)]> ts, w1).
Proof.
  induction p as [a|X e k IH]; intros h ts w w1 r Hi Hrun; simpl in Hrun.
  - injection Hrun as <- <-. exists 0, h. simpl. by rewrite list_insert_id.
  - destruct (handle E e w) as [[x w2]|] eqn:Hh; [|done].
    destruct (IH x (held_after e h)
                (<[i := Task (held_after e h) (k x)]> ts) w2 w1 r)
      as (n & h1 & Hsched); [|done|].
    { apply list_lookup_insert_eq. by eapply lookup_lt_Some. }
    exists (S n), h1. cbn [replicate]. rewrite schedule_cons.
    unfold step_at at 1. cbn [fst snd]. rewrite Hi. unfold step_task.
    cbn [code held]. rewrite Hh, Hsched. by rewrite list_insert_insert_eq.
Qed.

Lemma gather_seq_as_schedule (E : env) (ps : list (prog (str * bool))) :
  ∀ (pre : list task) (w w1 : world) (rs : list (str * bool)),
    gather_seq E ps w = Some (rs, w1) →
    ∃ sched post,
      schedule E sched (pre ++ (Task 0 <$> ps), w) = (pre ++ post, w1)
      ∧ mapM finished post = Some rs.
Proof.
  induction ps as [|p ps IH]; intros pre w w1 rs Hg; simpl in Hg.
  - injection Hg as <- <-. by exists [], [].
  - destruct (run E p w) as [[r w2]|] eqn:Hrun; [|done].
    destruct (gather_seq E ps w2) as [[rs' w3]|] eqn:Hrest; [|done].
    injection Hg as <- <-.
    destruct (run_as_schedule E (length pre) p 0
                (pre ++ (Task 0 <$> p :: ps)) w w2 r) as (k & h1 & Hone);
      [|done|].
    { rewrite fmap_cons. by apply list_lookup_middle. }
    destruct (IH (pre ++ [Task h1 (Ret r)]) w2 w3 rs' Hrest)
      as (sched & post & Hsched & Hpost).
    exists (replicate k (length pre) ++ sched), (Task h1 (Ret r) :: post).
    split.
    + rewrite schedule_app, Hone, fmap_cons.
      rewrite (insert_app_r_alt pre) by lia.
      rewrite Nat.sub_diag. cbn [insert list_insert].
      by rewrite <- !app_assoc in Hsched.
    + apply mapM_Some. constructor; [done|]. by apply mapM_Some.
Qed.

(** The run that takes the downloads one after the other is the run of one
    schedule. *)
Lemma main_seq_as_schedule (E : env) (w0 w1 : world) (r : result unit) :
  main_seq E w0 = Some (r, w1) → ∃ sched, main E sched w0 = Some (r, w1).
Proof.
  unfold main_seq, main.
  destruct (run E main_head w0) as [[[urls|e] w2]|]; [| by exists [] | done].
  destruct (gather_seq E (download_doc <$> urls)
              (set_permits CONCURRENT_REQUESTS w2))
    as [[results w3]|] eqn:Hg; [|done].
  destruct (gather_seq_as_schedule E _ [] _ _ _ Hg)
    as (sched & post & Hsched & Hpost).
  intros Hrun. exists sched. unfold spawn.
  rewrite <- list_fmap_compose in Hsched. simpl in Hsched.
  unfold compose in Hsched. rewrite Hsched. unfold gathered. by rewrite Hpost.
Qed.

(** * The claims *)

(** ** C1: the language filter *)

(** C1, as the code has it.  The addresses [fetch_sitemap] returns are the
    texts of the [<loc>] entries, in their original order, that are kept by
    this rule: the text is not empty, it holds the marker [/docs/], and the
    first path segment after the marker (what stands before the first
    separator of [path_after_docs]) is not exactly one of the eleven
    language codes.  So an address without the marker is excluded too, and
    an address with it is excluded if and only if that segment is a
    language code followed by a separator; [design/...] is kept. *)
Theorem language_filter_keeps (root : Element) :
  english_urls root
  = filter (λ url, retained url = true) (omap id (loc_texts root))
  ∧ retained (lit "https://example.com/docs/design/tokens") = true
  ∧ retained (lit "https://example.com/docs/de/overview") = false.
Proof.
  split; [|by vm_compute].
  unfold english_urls, loc_texts. rewrite fold_visit_loc. simpl. f_equal.
  induction (findall_descendants LOC_TAG root) as [|loc locs IH]; [done|].
  rewrite fmap_cons. cbn [omap list_omap]. rewrite <- IH.
  by destruct (text loc).
Qed.

(** C1 as stated fails: an address without the marker is excluded although
    no language code follows any marker in it. *)
Lemma language_filter_drops_unmarked :
  let url := lit "https://example.com/about" in
  let root := Elem (NS "urlset") None [url_entry "https://example.com/about"] in
  loc_texts root = [Some url]
  ∧ english_urls root = []
  ∧ contains DOCS_MARKER url = false
  ∧ language_page (path_after_docs url) = false
  ∧ re_match LANG_RE (path_after_docs url) = false.
Proof. by vm_compute. Qed.

(** ** C3: the sitemap reader *)

(** C3, as the code has it.  For a parsed sitemap with N [<loc>] entries,
    the loop of [fetch_sitemap] makes exactly N rounds, one for each entry
    in document order, and each round reads the text of its entry as the
    parser gave it: it appends that text unchanged or appends nothing.  The
    text of an entry without text is [None], which is no string and is
    never appended; so the strings read are those of the entries that have
    text, and there are N of them less the number of entries without text.
    A run of [fetch_sitemap] on a document that parses to the sitemap
    returns what this loop leaves. *)
Theorem reader_reads_every_loc (root : Element) :
  english_urls root = fold_left visit_loc (loc_entries root) []
  ∧ length (loc_entries root) = count_loc root
  ∧ (∀ urls loc,
       visit_loc urls loc
       = urls ++ filter (λ url, retained url = true) (option_list (text loc)))
  ∧ loc_texts root = text <$> loc_entries root
  ∧ strings_read root = omap text (loc_entries root)
  ∧ length (strings_read root)
    + length (filter (λ loc, text loc = None) (loc_entries root))
    = count_loc root
  ∧ ∀ (st : Z) (t : str) (faults : path → str → option (exn * nat))
      (w : world),
      run (Env (λ _, Ok (Response st (Ok t))) (λ _, Ok root) faults)
        fetch_sitemap w
      = Some (Ok (fold_left visit_loc (loc_entries root) []),
              World (fs w) (stdout w) (requests w ++ [SITEMAP_URL])
                (permits w)).
Proof.
  assert (findall_descendants LOC_TAG root = loc_entries root) as Hall.
  { unfold loc_entries, findall_descendants. rewrite filter_flat_map.
    apply flat_map_Forall_ext, Forall_forall. intros e _.
    apply iter_preorder. }
  assert (length (loc_entries root) = count_loc root) as Hlen.
  { rewrite <- Hall. unfold findall_descendants, count_loc.
    rewrite length_flat_map. f_equal.
    apply list_fmap_ext. intros _ e _. apply length_iter. }
  unfold english_urls, loc_texts, strings_read. rewrite Hall.
  repeat split; try done.
  - apply visit_loc_retained.
  - rewrite <- Hlen. clear Hall Hlen.
    induction (loc_entries root) as [|loc locs IH]; [done|].
    rewrite filter_cons. cbn [omap list_omap].
    destruct (text loc) as [url|] eqn:Hloc.
    + rewrite decide_False by done. simpl. by rewrite IH.
    + rewrite decide_True by done. simpl. rewrite <- IH. lia.
  - intros st t faults w. rewrite run_fetch_sitemap.
    unfold sitemap_result, english_urls. cbn [http body fromstring].
    by rewrite Hall.
Qed.

(** C3 as stated fails: a sitemap with three [<loc>] entries, one of them
    empty, gives the loop two strings to read, not three; the empty entry
    reads as [None]. *)
Lemma empty_loc_is_no_string :
  let root := sitemap_with_empty_loc in
  count_loc root = 3
  ∧ loc_texts root
    = [Some (lit "https://example.com/docs/overview"); None;
       Some (lit "https://example.com/docs/de/overview")]
  ∧ strings_read root
    = [lit "https://example.com/docs/overview";
       lit "https://example.com/docs/de/overview"]
  ∧ length (strings_read root) = 2
  ∧ english_urls root = [lit "https://example.com/docs/overview"].
Proof. by vm_compute. Qed.

(** ** C7: the address requested *)

(** C7.  A download for which a slot is free makes exactly one request, for
    the address without its trailing separators followed by [.md]; there is
    only one way to cut the address so. *)
Theorem download_requests_markdown (E : env) (url : str) (w : world) :
  0 < permits w →
  ∃ base n outcome w1,
    url = base ++ replicate n slash ∧ last base ≠ Some slash
    ∧ (∀ base' n', url = base' ++ replicate n' slash →
                   last base' ≠ Some slash → base' = base)
    ∧ run E (download_doc url) w = Some (outcome, w1)
    ∧ requests w1 = requests w ++ [base ++ lit ".md"].
Proof.
  intros Hfree. destruct (permits w) as [|k] eqn:Hk; [lia|].
  destruct (rstrip_spec slash url) as (n & Hurl & Hlast).
  rewrite (run_download_doc E url w k Hk).
  destruct (download_effect E url (fs w)) as [[ok f] out].
  eexists (rstrip slash url), n, _, _. repeat (split; [done|]).
  split; [|done]. intros base' n' Hurl' Hlast'. symmetry.
  by eapply rstrip_unique.
Qed.

Lemma download_requests_markdown_witness :
  let w := World empty_dir [] [] CONCURRENT_REQUESTS in
  0 < permits w
  ∧ ∃ base n outcome w1,
      lit "https://example.com/docs/overview//" = base ++ replicate n slash
      ∧ last base ≠ Some slash
      ∧ (∀ base' n',
           lit "https://example.com/docs/overview//"
           = base' ++ replicate n' slash →
           last base' ≠ Some slash → base' = base)
      ∧ run (sample_env 200) (download_doc (lit "https://example.com/docs/overview//")) w
        = Some (outcome, w1)
      ∧ requests w1 = requests w ++ [base ++ lit ".md"].
Proof.
  split; [vm_compute; lia|].
  apply (download_requests_markdown (sample_env 200)
           (lit "https://example.com/docs/overview//")).
  vm_compute. lia.
Defined.

(** ** C2: when the sitemap stage fails *)

Lemma files_put_Dir (f : disk) (loc : list str) :
  nodes f !! loc = None → files (put loc Dir f) = files f.
Proof.
  intros Hp. unfold files, put. simpl. rewrite omap_insert_None by done.
  apply delete_id. by rewrite lookup_omap, Hp.
Qed.

Lemma os_mkdir_files (p : path) (f : disk) :
  files (os_mkdir p f).2 = files f.
Proof.
  unfold os_mkdir, stat. destruct p as [abs segs].
  destruct segs as [|x segs _] using rev_ind; [done|].
  rewrite slot_snoc, locate_snoc.
  destruct (locate f (abs, segs)) as [[]|[l0 [|c]]]; try done.
  destruct (node_at f (step_to l0 x)) as [n|] eqn:Hn; [done|].
  destruct (decide (x = DOTDOT)); [done|].
  simpl. by apply files_put_Dir, node_at_None.
Qed.

(** Making directories writes no file. *)
Lemma mkdir_files (parents : bool) (p : path) (f : disk) :
  files (mkdir parents p f).2 = files f.
Proof.
  unfold mkdir. generalize (rev p.2) as rsegs. generalize p.1 as abs.
  intros abs rsegs. revert parents f.
  induction rsegs as [|seg rsegs IH]; intros parents f; cbn [mkdir_rev].
  - pose proof (os_mkdir_files (abs, rev []) f) as Hos.
    destruct (os_mkdir (abs, rev []) f) as [[u|e] f1]; [done|].
    destruct e; try done; by destruct (stat f (abs, rev [])) as [?|[|?]].
  - pose proof (os_mkdir_files (abs, rev (seg :: rsegs)) f) as Hos.
    destruct (os_mkdir (abs, rev (seg :: rsegs)) f) as [[u|e] f1]; [done|].
    destruct e;
      try (by destruct (stat f (abs, rev (seg :: rsegs))) as [?|[|?]]).
    destruct parents; [|done].
    specialize (IH true f).
    destruct (mkdir_rev true abs rsegs f) as [[u|e] f2]; [|done].
    pose proof (os_mkdir_files (abs, rev (seg :: rsegs)) f2) as Hos2.
    destruct (os_mkdir (abs, rev (seg :: rsegs)) f2) as [[u2|e2] f3];
      [simpl in *; congruence|].
    destruct e2;
      by destruct (stat f3 (abs, rev (seg :: rsegs))) as [?|[|?]];
         simpl in *; congruence.
Qed.

(** C2, as the code has it.  The sitemap stage makes one request and fails
    exactly when the request raises, reading the body raises, or the body
    does not parse; the status of the answer is never looked at, so the
    stage gives the same with any status in its place.  When the stage
    fails, [main] ends with an exception under every schedule, having
    requested no page and written no file. *)
Theorem sitemap_failure_aborts (E : env) (st : Z) (w : world)
    (sched : list nat) :
  run E fetch_sitemap w
  = Some (sitemap_result E,
          World (fs w) (stdout w) (requests w ++ [SITEMAP_URL]) (permits w))
  ∧ sitemap_result (with_sitemap_status st E) = sitemap_result E
  ∧ match sitemap_result E with
    | Raise e =>
        ∃ e1 w1,
          main E sched w = Some (Raise e1, w1)
          ∧ (e1 = e ∨ (mkdir false DOCS_DIR (fs w)).1 = Raise e1)
          ∧ (requests w1 = requests w
             ∨ requests w1 = requests w ++ [SITEMAP_URL])
          ∧ files (fs w1) = files (fs w)
    | Ok urls =>
        (head_effect E w).1 = Ok urls
        ∨ ∃ e, (mkdir false DOCS_DIR (fs w)).1 = Raise e
    end.
Proof.
  split; [apply run_fetch_sitemap|]. split.
  - unfold sitemap_result, with_sitemap_status. cbn [http fromstring].
    destruct (http E SITEMAP_URL) as [resp|e]; [|done].
    by rewrite decide_True.
  - unfold main. rewrite run_main_head. unfold head_effect.
    pose proof (mkdir_files false DOCS_DIR (fs w)) as Hfiles.
    destruct (mkdir false DOCS_DIR (fs w)) as [[[]|e0] f];
      destruct (sitemap_result E) as [urls|e]; cbn [fst snd] in *.
    + by left.
    + eexists e, _. split; [done|]. split; [by left|]. split; [by right|].
      done.
    + right. by exists e0.
    + eexists e0, _. split; [done|]. split; [by right|]. split; [by left|].
      done.
Qed.

(** C2 as stated fails: with status 500 and a well-formed sitemap as the
    body, the stage returns the addresses, and [main] goes on to request
    the pages and write the one it gets. *)
Lemma sitemap_status_500_goes_on :
  let E := sample_env 500 in
  let w := World empty_dir [] [] 0 in
  http E SITEMAP_URL = Ok (Response 500 (Ok sample_xml))
  ∧ fromstring E sample_xml = Ok sample_sitemap
  ∧ sitemap_result E
    = Ok [lit "https://example.com/docs/overview";
          lit "https://example.com/docs/build-a-cli"]
  ∧ match main_seq E w with
    | Some (r, w1) =>
        r = Ok tt
        ∧ requests w1
          = [SITEMAP_URL; lit "https://example.com/docs/overview.md";
             lit "https://example.com/docs/build-a-cli.md"]
        ∧ stat (fs w1) (false, [lit "docs"; lit "overview.md"])
          = inr (File (lit "# Overview"))
    | None => False
    end.
Proof. vm_compute. repeat split. Qed.

(** ** C4: a page that is served *)

(** C4, as the code has it.  A download whose request is answered with
    status 200 reports success exactly when reading the body, making the
    parent directories and writing the file raise nothing; the file is then
    at [docs/<rel>.md], where [rel] is the text after the marker without its
    leading and trailing separators, or [index] when nothing is left, and it
    holds the body as it came.  When one of them raises, the download
    reports failure. *)
Theorem download_writes_page (E : env) (url : str) (w : world)
    (resp : response) :
  0 < permits w →
  http E (markdown_url url) = Ok resp → status resp = 200%Z →
  ∃ ok w1 a b rel,
    run E (download_doc url) w = Some ((url, ok), w1)
    ∧ path_after_docs url = replicate a slash ++ rel ++ replicate b slash
    ∧ head rel ≠ Some slash ∧ last rel ≠ Some slash
    ∧ doc_filepath url
      = (false,
         lit "docs"
         :: (Path ((if decide (rel = []) then lit "index" else rel)
                   ++ lit ".md")).2)
    ∧ match body resp with
      | Raise _ => ok = false
      | Ok content =>
          let made := mkdir true (parent (doc_filepath url)) (fs w) in
          let written :=
            write_text (write_fault E (doc_filepath url) content)
              (doc_filepath url) content made.2 in
          if ok then
            made.1 = Ok tt ∧ written.1 = Ok tt ∧ fs w1 = written.2
            ∧ stat (fs w1) (doc_filepath url) = inr (File content)
            ∧ stat (fs w1) (parent (doc_filepath url)) = inr Dir
          else
            (∃ e, made.1 = Raise e) ∨ (∃ e, written.1 = Raise e)
      end.
Proof.
  intros Hfree Hget Hst. destruct (permits w) as [|k] eqn:Hk; [lia|].
  destruct (doc_filepath_spec url) as (a & b & rel & Hrel & Hh & Hl & Hpath).
  rewrite (run_download_doc E url w k Hk). unfold download_effect.
  rewrite Hget, decide_True by done.
  destruct (body resp) as [content|e0].
  - destruct (mkdir true (parent (doc_filepath url)) (fs w))
      as [[[]|e1] f1] eqn:Hmk; cbn [fst snd] in *.
    + destruct (write_text _ (doc_filepath url) content f1)
        as [[[]|e2] f2] eqn:Hwr; cbn [fst snd].
      * eexists true, _, a, b, rel. repeat (split; [done|]).
        cbn [fs fst snd]. repeat (split; [done|]).
        pose proof (write_text_stat _ _ _ _ _ Hwr) as Hfile.
        split; [done|]. by eapply stat_parent.
      * eexists false, _, a, b, rel. repeat (split; [done|]).
        right. by eauto.
    + eexists false, _, a, b, rel. repeat (split; [done|]).
      left. by eauto.
  - by eexists false, _, a, b, rel.
Qed.

Lemma download_writes_page_witness :
  let E := sample_env 200 in
  let url := lit "https://example.com/docs/overview" in
  let resp := Response 200 (Ok (lit "# Overview")) in
  0 < permits fresh_world
  ∧ http E (markdown_url url) = Ok resp
  ∧ status resp = 200%Z
  ∧ ∃ ok w1 a b rel,
      run E (download_doc url) fresh_world = Some ((url, ok), w1)
      ∧ path_after_docs url = replicate a slash ++ rel ++ replicate b slash
      ∧ head rel ≠ Some slash ∧ last rel ≠ Some slash
      ∧ doc_filepath url
        = (false,
           lit "docs"
           :: (Path ((if decide (rel = []) then lit "index" else rel)
                     ++ lit ".md")).2)
      ∧ match body resp with
        | Raise _ => ok = false
        | Ok content =>
            let made :=
              mkdir true (parent (doc_filepath url)) (fs fresh_world) in
            let written :=
              write_text (write_fault E (doc_filepath url) content)
                (doc_filepath url) content made.2 in
            if ok then
              made.1 = Ok tt ∧ written.1 = Ok tt ∧ fs w1 = written.2
              ∧ stat (fs w1) (doc_filepath url) = inr (File content)
              ∧ stat (fs w1) (parent (doc_filepath url)) = inr Dir
            else
              (∃ e, made.1 = Raise e) ∨ (∃ e, written.1 = Raise e)
        end.
Proof.
  split; [vm_compute; lia|]. split; [reflexivity|]. split; [reflexivity|].
  apply (download_writes_page (sample_env 200)
           (lit "https://example.com/docs/overview") fresh_world
           (Response 200 (Ok (lit "# Overview"))));
    [vm_compute; lia | reflexivity | reflexivity].
Defined.

(** The page at the root of the site goes to [docs/index.md]. *)
Example root_page_is_index :
  doc_filepath (lit "https://example.com/docs/")
  = (false, [lit "docs"; lit "index.md"])
  ∧ match
      run page_env (download_doc (lit "https://example.com/docs/")) fresh_world
    with
    | Some (outcome, w1) =>
        outcome = (lit "https://example.com/docs/", true)
        ∧ stat (fs w1) (false, [lit "docs"; lit "index.md"])
          = inr (File (lit "# Page"))
    | None => False
    end.
Proof. vm_compute. repeat split. Qed.

(** C4 as stated fails: after the page [a.md/b] has been written, the page
    [a] is served with status 200 but its file [docs/a.md] is a directory;
    the download reports failure and writes nothing. *)
Lemma served_page_not_written :
  let E := page_env in
  let first := lit "https://example.com/docs/a.md/b" in
  let url := lit "https://example.com/docs/a" in
  http E (markdown_url url) = Ok (Response 200 (Ok (lit "# Page")))
  ∧ doc_filepath url = (false, [lit "docs"; lit "a.md"])
  ∧ match run E (download_doc first) fresh_world with
    | Some (outcome1, w1) =>
        outcome1 = (first, true)
        ∧ stat (fs w1) (doc_filepath url) = inr Dir
        ∧ match run E (download_doc url) w1 with
          | Some (outcome2, w2) =>
              outcome2 = (url, false)
              ∧ stat (fs w2) (doc_filepath url) = inr Dir
              ∧ stdout w2
                = [lit "Error downloading https://example.com/docs/a: "
                   ++ lit "[Errno 21] Is a directory: 'docs/a.md'"]
          | None => False
          end
    | None => False
    end.
Proof. vm_compute. repeat split. Qed.

(** ** C5: a page that is not served *)

(** C5.  A download whose request is answered with a status other than 200,
    or whose request or body read raises, reports failure for its address,
    leaves the files as they were and gives its slot back; when an
    exception was raised it prints one line with the address and the
    exception, otherwise nothing.  Among downloads taken one after the
    other, leaving the failing one out changes neither the outcomes of the
    others nor the files. *)
Theorem failure_stays_local (E : env) (url : str) (w : world)
    (before after : list str) :
  0 < permits w →
  status_not_ok E url ∨ transport_raises E url →
  (∃ w1,
     run E (download_doc url) w = Some ((url, false), w1)
     ∧ fs w1 = fs w ∧ permits w1 = permits w
     ∧ requests w1 = requests w ++ [markdown_url url]
     ∧ ((status_not_ok E url ∧ stdout w1 = stdout w)
        ∨ (transport_raises E url
           ∧ ∃ e, stdout w1
                  = stdout w ++ [lit "Error downloading " ++ url ++ lit ": "
                                 ++ exn_str e])))
  ∧ ∃ rs1 rs2 w2 w3,
      gather_seq E (download_doc <$> before ++ url :: after) w
      = Some (rs1 ++ (url, false) :: rs2, w2)
      ∧ gather_seq E (download_doc <$> before ++ after) w
        = Some (rs1 ++ rs2, w3)
      ∧ rs1.*1 = before ∧ rs2.*1 = after
      ∧ fs w2 = fs w3.
Proof.
  intros Hfree Hfail. destruct (permits w) as [|k] eqn:Hk; [lia|].
  assert (∀ f, ∃ out, download_effect E url f = (false, f, out)
                      ∧ ((status_not_ok E url ∧ out = [])
                         ∨ (transport_raises E url
                            ∧ ∃ e, out = [error_line url e]))) as Heff.
  { intros f. destruct Hfail as [Hs|Hr].
    - exists []. split; [by apply download_effect_status | by left].
    - destruct (download_effect_raises E url f Hr) as [e He].
      exists [error_line url e]. split; [done | right; by eauto]. }
  split.
  - rewrite (run_download_doc E url w k Hk).
    destruct (Heff (fs w)) as (out & -> & Hout).
    eexists. split; [done|]. cbn [fs permits requests stdout].
    repeat (split; [done|]).
    destruct Hout as [[Hs ->]|[Hr [e ->]]].
    + left. by rewrite app_nil_r.
    + right. split; [done|]. by exists e.
  - rewrite !(gather_seq_downloads E _ w k Hk).
    rewrite !downloads_effect_app. cbn [downloads_effect].
    assert (∀ us f rs f1 outs,
              downloads_effect E us f = (rs, f1, outs) → rs.*1 = us) as Hfst.
    { induction us as [|u us IH]; intros f rs f1 outs; simpl.
      - by intros [= <- _ _].
      - destruct (download_effect E u f) as [[ok f2] out].
        destruct (downloads_effect E us f2) as [[rs' f3] outs'] eqn:Hrest.
        intros [= <- _ _]. rewrite fmap_cons. f_equal. by eapply IH. }
    destruct (downloads_effect E before (fs w)) as [[rs1 f1] outs1] eqn:H1.
    destruct (Heff f1) as (out & -> & _).
    destruct (downloads_effect E after f1) as [[rs2 f2] outs2] eqn:H2.
    eexists rs1, rs2, _, _. split; [done|]. split; [done|].
    split; [by eapply Hfst|]. split; [by eapply Hfst | done].
Qed.

Lemma failure_stays_local_witness :
  let E := sample_env 200 in
  let url := lit "https://example.com/docs/agents/overview" in
  let before := [lit "https://example.com/docs/overview"] in
  let after := [lit "https://example.com/docs/build-a-cli"] in
  0 < permits fresh_world
  ∧ (status_not_ok E url ∨ transport_raises E url)
  ∧ (∃ w1,
       run E (download_doc url) fresh_world = Some ((url, false), w1)
       ∧ fs w1 = fs fresh_world ∧ permits w1 = permits fresh_world
       ∧ requests w1 = requests fresh_world ++ [markdown_url url]
       ∧ ((status_not_ok E url ∧ stdout w1 = stdout fresh_world)
          ∨ (transport_raises E url
             ∧ ∃ e, stdout w1
                    = stdout fresh_world
                      ++ [lit "Error downloading " ++ url ++ lit ": "
                          ++ exn_str e])))
    ∧ ∃ rs1 rs2 w2 w3,
        gather_seq E (download_doc <$> before ++ url :: after) fresh_world
        = Some (rs1 ++ (url, false) :: rs2, w2)
        ∧ gather_seq E (download_doc <$> before ++ after) fresh_world
          = Some (rs1 ++ rs2, w3)
        ∧ rs1.*1 = before ∧ rs2.*1 = after
        ∧ fs w2 = fs w3.
Proof.
  assert (status_not_ok (sample_env 200)
            (lit "https://example.com/docs/agents/overview")) as Hs.
  { exists (Response 404 (Ok (lit "Not Found"))). split; [reflexivity|].
    simpl. lia. }
  split; [vm_compute; lia|]. split; [by left|].
  apply (failure_stays_local (sample_env 200)
           (lit "https://example.com/docs/agents/overview") fresh_world
           [lit "https://example.com/docs/overview"]
           [lit "https://example.com/docs/build-a-cli"]);
    [vm_compute; lia | by left].
Defined.

(** ** C6: one outcome for each address *)

(** C6.  Line 74 makes one task for each retained address, and the pool
    keeps that many under every schedule.  With the semaphore as [main]
    makes it, however far a schedule has brought the downloads, the event
    loop can go on until every task has returned, and [gather] then gives
    one outcome for each address, in the order of the addresses: none is
    missing and none comes twice, and the successes and the failures add
    up to the number of addresses.  No schedule lets [gather] give
    anything else. *)
Theorem one_outcome_per_address (E : env) (urls : list str) (w : world)
    (sched : list nat) :
  let start := (spawn urls, set_permits CONCURRENT_REQUESTS w) in
  length (schedule E sched start).1 = length urls
  ∧ (∃ more results,
       gathered (schedule E (sched ++ more) start).1 = Some results
       ∧ results.*1 = urls
       ∧ length results = length urls
       ∧ count_if id results + count_if negb results = length urls)
  ∧ ∀ results,
      gathered (schedule E sched start).1 = Some results →
      results.*1 = urls
      ∧ length results = length urls
      ∧ count_if id results + count_if negb results = length urls.
Proof.
  intros start.
  assert (∀ sched' results,
            gathered (schedule E sched' start).1 = Some results →
            results.*1 = urls
            ∧ length results = length urls
            ∧ count_if id results + count_if negb results = length urls)
    as Hone.
  { intros sched' results Hg.
    assert (results.*1 = urls) as Hfst.
    { eapply gathered_returns; [|done].
      apply schedule_returns, spawn_returns. }
    assert (length results = length urls) as Hlen.
    { by rewrite <- Hfst, length_fmap. }
    split; [done|]. split; [done|].
    rewrite <- Hlen. unfold count_if. clear.
    induction results as [|[url ok] rs IH]; [done|].
    rewrite !filter_cons. cbn [snd id length].
    destruct ok; cbn [negb];
      repeat first [rewrite decide_True by done | rewrite decide_False by done];
      rewrite ?fmap_cons; simpl in *; lia. }
  split; [|split].
  - rewrite schedule_length. simpl. unfold spawn. by rewrite length_fmap.
  - destruct (schedule_completes E CONCURRENT_REQUESTS urls w sched)
      as (more & results & Hg); [unfold CONCURRENT_REQUESTS; lia|].
    exists more, results. split; [done|]. by eapply Hone.
  - intros results. apply Hone.
Qed.

(** Two downloads interleaved event by event. *)
Example two_downloads_taking_turns :
  let E := sample_env 200 in
  let urls := [lit "https://example.com/docs/overview";
               lit "https://example.com/docs/build-a-cli"] in
  gathered (schedule E taking_turns (spawn urls, fresh_world)).1
  = Some [(lit "https://example.com/docs/overview", true);
          (lit "https://example.com/docs/build-a-cli", false)].
Proof. by vm_compute. Qed.

(** ** C8: the semaphore *)

(** C8.  Whatever the schedule, the number of downloads that hold a slot
    never exceeds the limit the semaphore was created with (10 in [main]):
    the slots held and the slots free always add up to the limit.  Every
    path of a download, whatever the answers it gets, gives back the slot
    it took before it returns; so a download that has returned holds
    nothing, and once all have returned every slot is free. *)
Theorem semaphore_bounds_downloads (E : env) (limit : nat) (urls : list str)
    (w : world) (sched : list nat) :
  let s := schedule E sched (spawn urls, set_permits limit w) in
  holding s.1 ≤ limit
  ∧ holding s.1 + permits s.2 = limit
  ∧ Forall (λ url, balanced 0 (download_doc url)) urls
  ∧ Forall (λ t, is_Some (finished t) → held t = 0) s.1
  ∧ (is_Some (gathered s.1) → permits s.2 = limit).
Proof.
  intros s.
  pose proof (schedule_pool_ok E limit sched (spawn urls, set_permits limit w)
                (spawn_pool_ok urls (set_permits limit w))) as [Hbal Hsum].
  fold s in Hbal, Hsum.
  assert (holding s.1 = sum_list (held <$> s.1)) as Hhold.
  { apply holding_sum. eapply Forall_impl; [exact Hbal|]. by intros t [_ ?]. }
  assert (Forall (λ t, is_Some (finished t) → held t = 0) s.1) as Hfin.
  { eapply Forall_impl; [exact Hbal|]. intros t [Ht _] [r Hr].
    unfold finished in Hr. by destruct (code t). }
  split; [lia|]. split; [lia|]. split.
  { apply Forall_forall. intros url _. apply download_doc_balanced. }
  split; [done|].
  intros [results Hg]. unfold gathered in Hg. apply mapM_Some in Hg.
  assert (sum_list (held <$> s.1) = 0) as Hzero; [|lia].
  clear -Hfin Hg. induction Hg as [|t r ts rs Ht _ IH]; [done|].
  inversion Hfin as [|?? Hheld Hrest]; subst.
  rewrite fmap_cons. simpl. rewrite Hheld by eauto. by rewrite IH.
Qed.

(** With more downloads than slots, the eleventh waits. *)
Example eleventh_download_waits :
  let urls := replicate 11 (lit "https://example.com/docs/overview") in
  let s := schedule (sample_env 200) (seq 0 11) (spawn urls, fresh_world) in
  holding s.1 = 10 ∧ permits s.2 = 0
  ∧ step_at (sample_env 200) s 10 = s.
Proof. by vm_compute. Qed.

(** ** C9: how the process ends *)

Lemma head_effect_Ok (E : env) (w w1 : world) (urls : list str) :
  head_effect E w = (Ok urls, w1) →
  (mkdir false DOCS_DIR (fs w)).1 = Ok tt ∧ sitemap_result E = Ok urls.
Proof.
  unfold head_effect.
  destruct (mkdir false DOCS_DIR (fs w)) as [[[]|e0] f]; [|done].
  destruct (sitemap_result E) as [urls'|e]; [|done].
  by intros [= <- _].
Qed.

Lemma head_effect_Raise (E : env) (w w1 : world) (e : exn) :
  head_effect E w = (Raise e, w1) →
  (mkdir false DOCS_DIR (fs w)).1 = Raise e ∨ sitemap_result E = Raise e.
Proof.
  unfold head_effect.
  destruct (mkdir false DOCS_DIR (fs w)) as [[[]|e0] f].
  - destruct (sitemap_result E) as [urls'|e1]; [done|].
    intros [= <- _]. by right.
  - intros [= <- _]. by left.
Qed.

(** C9, as the code has it.  [main] ends with an exception, and the process
    with status 1, exactly when creating the output directory raises or the
    sitemap stage raises; this is so under every schedule.  In every other
    case the downloads can always be brought to their end, whatever the
    event loop has done so far, and every run that ends does so normally,
    with status 0, whatever the outcomes of the downloads, after printing
    the summary, whose first line is the tally of successes and failures. *)
Theorem main_exit_status (E : env) (w0 : world) (sched : list nat) :
  match head_effect E w0 with
  | (Raise e, w1) =>
      main E sched w0 = Some (Raise e, w1)
      ∧ exit_status (Raise e) = 1%Z
      ∧ ((mkdir false DOCS_DIR (fs w0)).1 = Raise e
         ∨ sitemap_result E = Raise e)
  | (Ok urls, w1) =>
      (mkdir false DOCS_DIR (fs w0)).1 = Ok tt
      ∧ sitemap_result E = Ok urls
      ∧ (∀ r w3,
           main E sched w0 = Some (r, w3) →
           r = Ok tt ∧ exit_status r = 0%Z
           ∧ ∃ results out,
               results.*1 = urls
               ∧ stdout w3 = out ++ summary_lines results)
      ∧ ∃ more results out w3,
          main E (sched ++ more) w0 = Some (Ok tt, w3)
          ∧ results.*1 = urls
          ∧ stdout w3 = out ++ summary_lines results
  end.
Proof.
  unfold main. rewrite run_main_head.
  destruct (head_effect E w0) as [[urls|e] w1] eqn:Hhead.
  - destruct (head_effect_Ok _ _ _ _ Hhead) as [Hmk Hsm].
    split; [done|]. split; [done|]. split.
    + intros r w3.
      destruct (schedule E sched (spawn urls, set_permits CONCURRENT_REQUESTS w1))
        as [ts w2] eqn:Hs.
      destruct (gathered ts) as [results|] eqn:Hg; [|done].
      rewrite run_main_tail. intros [= <- <-]. split; [done|]. split; [done|].
      exists results, (stdout w2). split; [|done].
      eapply gathered_returns; [|exact Hg].
      replace ts with (schedule E sched
                         (spawn urls, set_permits CONCURRENT_REQUESTS w1)).1
        by by rewrite Hs.
      apply schedule_returns, spawn_returns.
    + destruct (schedule_completes E CONCURRENT_REQUESTS urls w1 sched)
        as (more & results & Hg); [unfold CONCURRENT_REQUESTS; lia|].
      assert (results.*1 = urls) as Hfst.
      { eapply gathered_returns; [|exact Hg].
        apply schedule_returns, spawn_returns. }
      exists more, results.
      destruct (schedule E (sched ++ more)
                  (spawn urls, set_permits CONCURRENT_REQUESTS w1))
        as [ts w2] eqn:Hs.
      cbn [fst] in Hg. exists (stdout w2). eexists.
      rewrite Hg, run_main_tail. split; [reflexivity|]. by split.
  - split; [done|]. split; [done|]. by eapply head_effect_Raise.
Qed.

(** C9 as stated fails: when [docs] is a regular file, [main] ends with
    [FileExistsError] and the process with status 1, although the sitemap
    stage would have succeeded; the sitemap is not even requested. *)
Lemma output_root_failure_aborts :
  let E := sample_env 200 in
  let w := World (docs_is_file (lit "notes")) [] [] 0 in
  let e := FileExistsError (lit "[Errno 17] File exists: 'docs'") in
  sitemap_result E
  = Ok [lit "https://example.com/docs/overview";
        lit "https://example.com/docs/build-a-cli"]
  ∧ main E [] w = Some (Raise e, w)
  ∧ main_seq E w = Some (Raise e, w)
  ∧ exit_status (Raise e) = 1%Z
  ∧ requests w = [].
Proof. by vm_compute. Qed.

(** ** C10: the marker more than once *)

(** Two occurrences of [/docs/] can only share their separator, and then
    the address holds [/docs/docs/]. *)
Lemma marker_no_overlap (url : str) :
  contains (lit "/docs/docs/") url = false → no_overlap DOCS_MARKER url.
Proof.
  intros Hno i j Hi Hj Hlt.
  destruct (decide (i + length DOCS_MARKER ≤ j)) as [|Hnear]; [done|].
  exfalso. change (length DOCS_MARKER) with 6 in Hnear.
  unfold occurs_at in Hi, Hj. apply startswith_prefix in Hi as [t Ht].
  replace j with (i + (j - i)) in Hj by lia.
  rewrite <- drop_drop, Ht in Hj.
  destruct (j - i) as [|[|[|[|[|[|d]]]]]] eqn:Hd; try lia; try done.
  change (drop 5 (DOCS_MARKER ++ t)) with (slash :: t) in Hj.
  change DOCS_MARKER with (slash :: lit "docs/") in Hj.
  cbn [startswith] in Hj. rewrite decide_True in Hj by done.
  apply startswith_prefix in Hj as [t' ->].
  assert (contains (lit "/docs/docs/") url = true) as Hyes; [|congruence].
  apply contains_spec. exists (take i url), t'.
  rewrite <- (take_drop i url) at 1. by rewrite Ht.
Qed.

(** C10, as the code has it.  Both the filter and the file path start from
    the last piece of [url.split("/docs/")]: a text that ends the address,
    holds no marker, and follows a marker when the address has one.  When
    no two occurrences of the marker overlap (the address does not hold
    [/docs/docs/]) this is the text after the last occurrence, so
    [https://example.com/docs/guide/docs/de/x] is excluded as a translated
    page. *)
Theorem marker_occurring_twice (url : str) (urls : list str) (tg : str)
    (cs : list Element) :
  (if contains DOCS_MARKER url
   then ∃ pre, url = pre ++ DOCS_MARKER ++ path_after_docs url
   else path_after_docs url = url)
  ∧ contains DOCS_MARKER (path_after_docs url) = false
  ∧ (contains (lit "/docs/docs/") url = false →
     path_after_docs url = after_last DOCS_MARKER url)
  ∧ visit_loc urls (Elem tg (Some url) cs)
    = (if bool_decide (url ≠ []) && contains DOCS_MARKER url
          && negb (language_page (path_after_docs url))
       then urls ++ [url] else urls)
  ∧ doc_filepath url
    = joinpath DOCS_DIR
        ((if decide (strip slash (path_after_docs url) = [])
          then lit "index" else strip slash (path_after_docs url))
         ++ lit ".md").
Proof.
  assert (DOCS_MARKER ≠ []) as Hsep by done.
  destruct (item_last_split_spec DOCS_MARKER url Hsep)
    as [(pre & Hpre & Hmark) Hnone].
  fold (path_after_docs url) in Hpre, Hnone.
  split; [|split; [done|split; [|split; [|done]]]].
  - destruct (contains DOCS_MARKER url) eqn:Hc.
    + destruct (Hmark eq_refl) as [pre' ->]. exists pre'.
      by rewrite <- app_assoc in Hpre.
    + unfold path_after_docs. rewrite item_last_split by done.
      destruct (find DOCS_MARKER url) as [i|] eqn:Hf; [|done].
      unfold contains in Hc. rewrite Hf in Hc.
      apply bool_decide_eq_false in Hc. destruct Hc. eauto.
  - intros Hno. apply item_last_split_after_last; [done|].
    by apply marker_no_overlap.
  - rewrite visit_loc_retained. cbn [text].
    change (option_list (Some url)) with [url].
    rewrite filter_cons, filter_nil. unfold retained.
    destruct (bool_decide (url ≠ []) && contains DOCS_MARKER url
              && negb (language_page (path_after_docs url))).
    + by rewrite decide_True.
    + rewrite decide_False by done. by rewrite app_nil_r.
Qed.

Lemma marker_occurring_twice_witness :
  let url := lit "https://example.com/docs/guide/docs/de/x" in
  contains (lit "/docs/docs/") url = false
  ∧ path_after_docs url = after_last DOCS_MARKER url
  ∧ after_last DOCS_MARKER url = lit "de/x"
  ∧ visit_loc [] (Elem LOC_TAG (Some url) []) = [].
Proof.
  split; [reflexivity|].
  destruct (marker_occurring_twice
              (lit "https://example.com/docs/guide/docs/de/x") [] LOC_TAG [])
    as (_ & _ & Hlast & Hvisit & _).
  split; [apply Hlast; reflexivity|]. split; [by vm_compute|].
  rewrite Hvisit. by vm_compute.
Defined.

(** C10 as stated fails: in [https://example.com/docs/docs/de/x] the marker
    occurs at 19 and at 24; the text after the last occurrence is [de/x],
    a translated page, but [split] cuts at 19 only, the last piece is
    [docs/de/x], and the address is retained and would be written to
    [docs/docs/de/x.md]. *)
Lemma overlapping_markers_cut_once :
  let url := lit "https://example.com/docs/docs/de/x" in
  occurs_at DOCS_MARKER url 19 ∧ occurs_at DOCS_MARKER url 24
  ∧ after_last DOCS_MARKER url = lit "de/x"
  ∧ language_page (after_last DOCS_MARKER url) = true
  ∧ path_after_docs url = lit "docs/de/x"
  ∧ english_urls
      (Elem (NS "urlset") None
         [url_entry "https://example.com/docs/docs/de/x"]) = [url]
  ∧ doc_filepath url
    = (false, [lit "docs"; lit "docs"; lit "de"; lit "x.md"]).
Proof. by vm_compute. Qed.

(** * Further properties *)

(** ** What [fetch_sitemap] returns *)

Lemma elem_of_english_urls (root : Element) (url : str) :
  url ∈ english_urls root ↔
  retained url = true
  ∧ ∃ e, e ∈ findall_descendants LOC_TAG root ∧ text e = Some url.
Proof.
  unfold english_urls. rewrite fold_visit_loc. simpl.
  rewrite list_elem_of_filter, list_elem_of_omap. naive_solver.
Qed.

Lemma elem_of_iter (t : str) (e e' : Element) :
  e' ∈ iter t e → tag e' = t.
Proof.
  rewrite iter_preorder. by intros [? _]%list_elem_of_filter.
Qed.

(** Every address [fetch_sitemap] returns is the text of a [<loc>] entry of
    the sitemap namespace, is not empty, holds the marker, and has no
    language code and separator after the marker. *)
Theorem returned_address_is_english (root : Element) (url : str) :
  url ∈ english_urls root →
  url ≠ [] ∧ contains DOCS_MARKER url = true
  ∧ re_match LANG_RE (path_after_docs url) = false
  ∧ ∃ e, e ∈ findall_descendants LOC_TAG root
         ∧ tag e = LOC_TAG ∧ text e = Some url.
Proof.
  intros (Hret & e & He & Htext)%elem_of_english_urls.
  unfold retained in Hret. rewrite <- re_match_language_page in Hret.
  apply andb_true_iff in Hret as [Hret Hlang].
  apply andb_true_iff in Hret as [Hne Hmark].
  apply bool_decide_eq_true in Hne. apply negb_true_iff in Hlang.
  repeat (split; [done|]). exists e. repeat split; [done| |done].
  unfold findall_descendants in He.
  apply list_elem_of_In, in_flat_map in He as (c & _ & Hc).
  apply list_elem_of_In in Hc. by eapply elem_of_iter.
Qed.

Lemma returned_address_is_english_witness :
  let url := lit "https://example.com/docs/build-a-cli" in
  url ∈ english_urls sample_sitemap
  ∧ url ≠ [] ∧ contains DOCS_MARKER url = true
  ∧ re_match LANG_RE (path_after_docs url) = false
  ∧ ∃ e, e ∈ findall_descendants LOC_TAG sample_sitemap
         ∧ tag e = LOC_TAG ∧ text e = Some url.
Proof.
  assert (lit "https://example.com/docs/build-a-cli"
          ∈ english_urls sample_sitemap) as Hin.
  { vm_compute. right. left. }
  split; [exact Hin|].
  exact (returned_address_is_english sample_sitemap
           (lit "https://example.com/docs/build-a-cli") Hin).
Defined.

(** A sitemap none of whose elements is a [<loc>] of the sitemap namespace
    gives no address, whatever texts it holds. *)
Theorem foreign_sitemap_gives_nothing (root : Element) :
  Forall (λ e, tag e ≠ LOC_TAG) (flat_map preorder (children root)) →
  english_urls root = [].
Proof.
  intros Hall. unfold english_urls, findall_descendants.
  assert (flat_map (iter LOC_TAG) (children root) = []) as ->; [|done].
  rewrite (flat_map_Forall_ext _ (λ e, filter (λ e', tag e' = LOC_TAG)
                                          (preorder e))).
  - rewrite <- filter_flat_map.
    induction Hall as [|e es He _ IH]; [done|].
    rewrite filter_cons. by rewrite decide_False.
  - apply Forall_forall. intros e _. apply iter_preorder.
Qed.

Lemma foreign_sitemap_gives_nothing_witness :
  Forall (λ e, tag e ≠ LOC_TAG) (flat_map preorder (children plain_sitemap))
  ∧ english_urls plain_sitemap = [].
Proof.
  assert (Forall (λ e, tag e ≠ LOC_TAG)
            (flat_map preorder (children plain_sitemap))) as Hall.
  { repeat constructor; by vm_compute. }
  split; [exact Hall|].
  exact (foreign_sitemap_gives_nothing plain_sitemap Hall).
Defined.

Lemma find_slash_None (p : str) : slash ∉ p → find [slash] p = None.
Proof.
  intros Hno. destruct (find [slash] p) as [i|] eqn:Hf; [|done].
  apply find_Some in Hf as [Hocc _]. unfold occurs_at in Hocc.
  apply startswith_head in Hocc. destruct Hno.
  apply list_elem_of_lookup. exists i.
  by rewrite head_lookup, lookup_drop, Nat.add_0_r in Hocc.
Qed.

(** An address with the marker and no separator after it is kept, a bare
    language code included: the pattern asks for the separator. *)
Theorem bare_language_code_is_kept (urls : list str) (tg : str)
    (cs : list Element) (url : str) :
  contains DOCS_MARKER url = true → slash ∉ path_after_docs url →
  visit_loc urls (Elem tg (Some url) cs) = urls ++ [url].
Proof.
  intros Hmark Hno. unfold visit_loc. cbn [text]. rewrite Hmark.
  rewrite re_match_language_page. unfold language_page, first_segment.
  rewrite find_slash_None by done. simpl.
  rewrite bool_decide_eq_true_2; [done|].
  intros ->. by vm_compute in Hmark.
Qed.

Lemma bare_language_code_is_kept_witness :
  let url := lit "https://example.com/docs/de" in
  contains DOCS_MARKER url = true
  ∧ (slash ∉ path_after_docs url)
  ∧ visit_loc [] (Elem LOC_TAG (Some url) []) = [] ++ [url].
Proof.
  assert (slash ∉ path_after_docs (lit "https://example.com/docs/de")) as Hno.
  { apply (bool_decide_unpack _). by vm_compute. }
  split; [reflexivity|]. split; [exact Hno|].
  exact (bare_language_code_is_kept [] LOC_TAG []
           (lit "https://example.com/docs/de") eq_refl Hno).
Defined.

(** ** What [download_doc] asks for and writes *)

(** Separators at the end of an address do not change the request: two
    entries of the sitemap that differ only there ask for the same
    resource. *)
Theorem trailing_separators_same_request (url : str) (n : nat) :
  markdown_url (url ++ replicate n slash) = markdown_url url.
Proof.
  unfold markdown_url. f_equal.
  destruct (rstrip_spec slash url) as (k & Hurl & Hlast).
  apply (rstrip_unique slash _ _ (k + n)); [|done].
  rewrite Hurl at 1. by rewrite <- app_assoc, replicate_add.
Qed.

Lemma mkdir_existing (parents : bool) (p : path) (f : disk) :
  stat f p = inr Dir → mkdir parents p f = (Ok tt, f).
Proof.
  intros Hdir. unfold mkdir. destruct p as [abs segs]. cbn [fst snd].
  assert (stat f (abs, rev (rev segs)) = inr Dir) as Hdir'
    by by rewrite rev_involutive.
  destruct (rev segs) as [|seg rsegs]; cbn [mkdir_rev]; unfold os_mkdir;
    by rewrite !Hdir'.
Qed.

Lemma put_same (f : disk) (loc : list str) (n : node) :
  nodes f !! loc = Some n → put loc n f = f.
Proof.
  intros Hn. destruct f as [wd ns]. unfold put. simpl in *.
  by rewrite insert_id.
Qed.

Lemma download_effect_again (E : env) (url : str) (f f1 : disk)
    (out : list str) :
  download_effect E url f = (true, f1, out) →
  download_effect E url f1 = (true, f1, []).
Proof.
  unfold download_effect.
  destruct (http E (markdown_url url)) as [resp|e0]; [|done].
  destruct (decide (status resp = 200%Z)); [|done].
  destruct (body resp) as [content|e1]; [|done].
  destruct (mkdir true (parent (doc_filepath url)) f) as [[[]|e2] fa]; [|done].
  destruct (write_text _ (doc_filepath url) content fa) as [[[]|e3] fb] eqn:Hwr;
    [|done].
  intros [= <- _].
  pose proof (write_text_stat _ _ _ _ _ Hwr) as Hfile.
  destruct (write_text_locate _ _ _ _ _ Hwr) as (-> & loc & Hloc).
  rewrite (mkdir_existing true _ fb) by by eapply stat_parent.
  unfold write_text. rewrite Hloc.
  rewrite put_same; [done|]. by eapply locate_File_nodes.
Qed.

(** A page downloaded with success is downloaded with success again, and the
    files are then exactly what they were: the file is written over, not
    added to. *)
Theorem download_twice_same_files (E : env) (url : str) (w w1 : world) :
  0 < permits w →
  run E (download_doc url) w = Some ((url, true), w1) →
  ∃ w2, run E (download_doc url) w1 = Some ((url, true), w2)
        ∧ fs w2 = fs w1 ∧ stdout w2 = stdout w1.
Proof.
  intros Hfree. destruct (permits w) as [|k] eqn:Hk; [lia|].
  rewrite (run_download_doc E url w k Hk).
  destruct (download_effect E url (fs w)) as [[ok f1] out] eqn:Heff.
  intros [= -> <-].
  rewrite (run_download_doc E url
             (World f1 (stdout w ++ out) (requests w ++ [markdown_url url])
                (S k)) k eq_refl).
  cbn [fs]. rewrite (download_effect_again _ _ _ _ _ Heff).
  eexists. split; [done|]. cbn [fs stdout]. by rewrite app_nil_r.
Qed.

Lemma download_twice_same_files_witness :
  let url := lit "https://example.com/docs/a" in
  let w1 := after_download page_env url fresh_world in
  0 < permits fresh_world
  ∧ run page_env (download_doc url) fresh_world = Some ((url, true), w1)
  ∧ ∃ w2, run page_env (download_doc url) w1 = Some ((url, true), w2)
          ∧ fs w2 = fs w1 ∧ stdout w2 = stdout w1.
Proof.
  assert (0 < permits fresh_world) as Hfree by (vm_compute; lia).
  assert (run page_env
            (download_doc (lit "https://example.com/docs/a"))
            fresh_world
          = Some ((lit "https://example.com/docs/a", true),
                  after_download page_env
                    (lit "https://example.com/docs/a") fresh_world))
    as Hrun by (vm_compute; reflexivity).
  split; [exact Hfree|]. split; [exact Hrun|].
  exact (download_twice_same_files page_env
           (lit "https://example.com/docs/a") fresh_world _ Hfree Hrun).
Defined.

Lemma files_put_File (f : disk) (loc : list str) (c : str) :
  files (put loc (File c) f) = <[loc := c]> (files f).
Proof. unfold files, put. simpl. by apply omap_insert_Some. Qed.

(** A download makes or changes at most one regular file, the one its
    destination resolves to.  That file holds the body of the page when
    the download reports success; when the write went wrong after the file
    had been opened, the download reports failure and the file is left
    with the beginning of the body, possibly with nothing. *)
Theorem download_changes_one_file (E : env) (url : str) (w w1 : world)
    (ok : bool) :
  0 < permits w →
  run E (download_doc url) w = Some ((url, ok), w1) →
  (ok = false ∧ files (fs w1) = files (fs w))
  ∨ ∃ resp content loc c,
      http E (markdown_url url) = Ok resp ∧ body resp = Ok content
      ∧ locate (fs w1) (doc_filepath url) = inr (loc, File c)
      ∧ files (fs w1) = <[loc := c]> (files (fs w))
      ∧ c `prefix_of` content
      ∧ (ok = true → c = content).
Proof.
  intros Hfree. destruct (permits w) as [|k] eqn:Hk; [lia|].
  rewrite (run_download_doc E url w k Hk). unfold download_effect.
  destruct (http E (markdown_url url)) as [resp|e0] eqn:Hget;
    [|intros [= <- <-]; by left].
  destruct (decide (status resp = 200%Z)) as [Hst|Hst];
    [|intros [= <- <-]; by left].
  destruct (body resp) as [content|e1] eqn:Hbody;
    [|intros [= <- <-]; by left].
  pose proof (mkdir_files true (parent (doc_filepath url)) (fs w)) as Hmk.
  destruct (mkdir true (parent (doc_filepath url)) (fs w)) as [[[]|e2] fa];
    cbn [fst snd] in Hmk; [|intros [= <- <-]; by left].
  destruct (write_text_cases (write_fault E (doc_filepath url) content)
              (doc_filepath url) content fa)
    as [[e ->]|(loc & -> & _ & Hloc)]; [intros [= <- <-]; by left|].
  assert (written_text (write_fault E (doc_filepath url) content) content
          `prefix_of` content) as Hpre.
  { unfold written_text.
    destruct (write_fault E (doc_filepath url) content) as [[e n]|];
      [apply prefix_take | done]. }
  destruct (write_fault E (doc_filepath url) content) as [[e n]|] eqn:Hfault;
    intros [= <- <-]; right; exists resp, content, loc; eexists;
    cbn [fs]; (split; [done|]); (split; [done|]); (split; [exact Hloc|]);
    rewrite files_put_File, Hmk; done.
Qed.

Lemma download_changes_one_file_witness :
  let url := lit "https://example.com/docs/a" in
  let w1 := after_download full_disk_env url fresh_world in
  0 < permits fresh_world
  ∧ run full_disk_env (download_doc url) fresh_world = Some ((url, false), w1)
  ∧ ((false = false ∧ files (fs w1) = files (fs fresh_world))
     ∨ ∃ resp content loc c,
         http full_disk_env (markdown_url url) = Ok resp
         ∧ body resp = Ok content
         ∧ locate (fs w1) (doc_filepath url) = inr (loc, File c)
         ∧ files (fs w1) = <[loc := c]> (files (fs fresh_world))
         ∧ c `prefix_of` content
         ∧ (false = true → c = content)).
Proof.
  assert (0 < permits fresh_world) as Hfree by (vm_compute; lia).
  assert (run full_disk_env
            (download_doc (lit "https://example.com/docs/a"))
            fresh_world
          = Some ((lit "https://example.com/docs/a", false),
                  after_download full_disk_env
                    (lit "https://example.com/docs/a") fresh_world))
    as Hrun by (vm_compute; reflexivity).
  split; [exact Hfree|]. split; [exact Hrun|].
  exact (download_changes_one_file full_disk_env
           (lit "https://example.com/docs/a") fresh_world _ _ Hfree Hrun).
Defined.

(** A page served with status 200 on a disk with no room left: the
    download reports failure, and its file is there, empty. *)
Example interrupted_write_leaves_empty_file :
  let url := lit "https://example.com/docs/a" in
  match run full_disk_env (download_doc url) fresh_world with
  | Some (outcome, w1) =>
      outcome = (url, false)
      ∧ stat (fs fresh_world) (doc_filepath url) = inl ENOENT
      ∧ stat (fs w1) (doc_filepath url) = inr (File [])
      ∧ stdout w1
        = [lit "Error downloading https://example.com/docs/a: "
           ++ lit "[Errno 28] No space left on device"]
  | None => False
  end.
Proof. vm_compute. repeat split. Qed.

(** Dot-dot segments of an address stay in the path and are followed by the
    file system: the pages [a/../b] and [b] go to the same file. *)
Example dotdot_segments_are_followed :
  let first := lit "https://example.com/docs/a/../b" in
  let second := lit "https://example.com/docs/b" in
  doc_filepath first = (false, [lit "docs"; lit "a"; lit ".."; lit "b.md"])
  ∧ doc_filepath second = (false, [lit "docs"; lit "b.md"])
  ∧ match gather_seq page_env (download_doc <$> [first; second]) fresh_world
    with
    | Some (results, w1) =>
        results = [(first, true); (second, true)]
        ∧ locate (fs w1) (doc_filepath first)
          = inr ([lit "srv"; lit "docs"; lit "b.md"], File (lit "# Page"))
        ∧ locate (fs w1) (doc_filepath second)
          = inr ([lit "srv"; lit "docs"; lit "b.md"], File (lit "# Page"))
        ∧ map_to_list (files (fs w1))
          = [([lit "srv"; lit "docs"; lit "b.md"], lit "# Page")]
    | None => False
    end.
Proof. vm_compute. repeat split. Qed.

(** ** What a run prints and asks for *)


Lemma handle_requests (E : env) {X : Type} (e : event X) (w w1 : world)
    (x : X) :
  handle E e w = Some (x, w1) →
  requests w1 = requests w ++ option_list (get_url e).
Proof.
  destruct e; simpl; intros Hh; simplify_eq; simpl; rewrite ?app_nil_r;
    try done.
  - destruct (permits w); by simplify_eq.
  - destruct (mkdir parents p (fs w)). by simplify_eq.
  - destruct (write_text _ p content (fs w)). by simplify_eq.
Qed.


Lemma download_doc_asks (url : str) :
  asks [markdown_url url] (download_doc url).
Proof.
  unfold download_doc, download_try.
  repeat first
    [ progress run_step
    | done
    | match goal with
      | |- ∃ rs', _ :: _ = _ :: rs' ∧ _ => eexists; split; [reflexivity|]
      | |- ∀ x : result _, _ => intros [?|?]
      | |- ∀ x : unit, _ => intros []
      | |- context [decide (?P)] => destruct (decide P)
      end ].
Qed.



Lemma concat_insert_cons (rss : list (list str)) (i : nat) (u : str)
    (rs : list str) :
  rss !! i = Some (u :: rs) → concat rss ≡ₚ u :: concat (<[i := rs]> rss).
Proof.
  revert i. induction rss as [|r rss IH]; intros [|i] Hi; simplify_eq/=.
  - done.
  - rewrite (IH i Hi). by rewrite Permutation_middle.
Qed.

(** What the pool asks for while it runs: requests the tasks had still to
    make, each once. *)
Lemma schedule_requests (E : env) (sched : list nat) :
  ∀ (rss : list (list str)) (s : list task * world),
    pool_asks rss s.1 →
    ∃ asked rss',
      requests (schedule E sched s).2 = requests s.2 ++ asked
      ∧ pool_asks rss' (schedule E sched s).1
      ∧ asked ++ concat rss' ≡ₚ concat rss.
Proof.
  induction sched as [|i sched IH]; intros rss s Hasks.
  - exists [], rss. by rewrite app_nil_r.
  - rewrite schedule_cons.
    destruct (step_at_cases E s i) as [->|(t & t1 & w1 & Hi & Hst & Heq)];
      [by apply IH|].
    apply step_task_inv in Hst as (X & e & k & x & Hcode & Hh & ->).
    destruct (Forall2_lookup_r _ _ _ _ _ Hasks Hi) as (rs & Hrs & Ht).
    rewrite Hcode in Ht. cbn [asks] in Ht.
    pose proof (handle_requests E e _ _ x Hh) as Hreq.
    rewrite Heq. clear Heq.
    destruct (get_url e) as [u|].
    + destruct Ht as (rs' & -> & Hk).
      destruct (IH (<[i := rs']> rss)
                  (<[i := Task (held_after e (held t)) (k x)]> s.1, w1))
        as (asked & rss' & Hout & Hasks' & Hperm).
      { cbn [fst]. apply Forall2_insert; [done|]. apply Hk. }
      exists (u :: asked), rss'. rewrite Hout. cbn [snd].
      rewrite Hreq. cbn [option_list]. rewrite <- app_assoc.
      split; [done|]. split; [done|].
      rewrite (concat_insert_cons rss i u rs' Hrs). cbn [app].
      by rewrite Hperm.
    + destruct (IH rss (<[i := Task (held_after e (held t)) (k x)]> s.1, w1))
        as (asked & rss' & Hout & Hasks' & Hperm).
      { cbn [fst]. rewrite <- (list_insert_id rss i rs Hrs).
        apply Forall2_insert; [done|]. apply Ht. }
      exists asked, rss'. rewrite Hout. cbn [snd].
      rewrite Hreq. cbn [option_list]. by rewrite app_nil_r.
Qed.

Lemma spawn_asks (urls : list str) :
  pool_asks ((λ url, [markdown_url url]) <$> urls) (spawn urls).
Proof.
  apply Forall2_fmap, Forall_Forall2_diag, Forall_forall.
  intros url _. apply download_doc_asks.
Qed.

Lemma gathered_asks (rss : list (list str)) (ts : list task)
    (results : list (str * bool)) :
  pool_asks rss ts → gathered ts = Some results → concat rss = [].
Proof.
  unfold gathered. rewrite mapM_Some. intros Hasks Hres.
  revert rss Hasks. induction Hres as [|t r ts rs Hfin _ IH];
    intros rss Hasks; inversion Hasks as [|rs0 ? rss0 ? Hr Hrest]; subst;
    [done|].
  unfold finished in Hfin. destruct (code t); [|done].
  simpl in Hr. subst. simpl. by apply IH.
Qed.

Lemma head_effect_world (E : env) (w w1 : world) (urls : list str) :
  head_effect E w = (Ok urls, w1) →
  sitemap_result E = Ok urls
  ∧ stdout w1
    = stdout w ++ [lit "Fetching sitemap...";
                   lit "Found " ++ str_of_nat (length urls)
                   ++ lit " English docs"]
  ∧ requests w1 = requests w ++ [SITEMAP_URL].
Proof.
  unfold head_effect.
  destruct (mkdir false DOCS_DIR (fs w)) as [[[]|e0] f]; [|done].
  destruct (sitemap_result E) as [urls'|e]; [|done].
  intros [= <- <-]. cbn [stdout requests]. by rewrite <- app_assoc.
Qed.

(** Cutting [main] at its three stages. *)
Lemma main_Ok_inv (E : env) (sched : list nat) (w0 w3 : world) :
  main E sched w0 = Some (Ok tt, w3) →
  ∃ urls w1 ts w2 results,
    head_effect E w0 = (Ok urls, w1)
    ∧ schedule E sched (spawn urls, set_permits CONCURRENT_REQUESTS w1)
      = (ts, w2)
    ∧ gathered ts = Some results
    ∧ w3 = World (fs w2) (stdout w2 ++ summary_lines results) (requests w2)
             (permits w2).
Proof.
  unfold main. rewrite run_main_head.
  destruct (head_effect E w0) as [[urls|e] w1]; [|done].
  destruct (schedule E sched (spawn urls, set_permits CONCURRENT_REQUESTS w1))
    as [ts w2] eqn:Hs.
  destruct (gathered ts) as [results|] eqn:Hg; [|done].
  rewrite run_main_tail. intros [= <-]. by exists urls, w1, ts, w2, results.
Qed.


(** A run that ends normally has asked for the sitemap first and then, in
    some order, once for the page of each address kept, and for nothing
    else. *)
Theorem run_requests (E : env) (sched : list nat) (w0 w3 : world) :
  main E sched w0 = Some (Ok tt, w3) →
  ∃ urls asked,
    sitemap_result E = Ok urls
    ∧ requests w3 = requests w0 ++ SITEMAP_URL :: asked
    ∧ asked ≡ₚ markdown_url <$> urls.
Proof.
  intros (urls & w1 & ts & w2 & results & Hhead & Hs & Hg & ->)%main_Ok_inv.
  destruct (head_effect_world _ _ _ _ Hhead) as (Hsm & _ & Hreq).
  destruct (schedule_requests E sched _
              (spawn urls, set_permits CONCURRENT_REQUESTS w1)
              (spawn_asks urls)) as (asked & rss & Hasked & Hasks & Hperm).
  rewrite Hs in Hasked, Hasks. cbn [fst snd requests set_permits] in *.
  exists urls, asked. split; [done|]. split.
  - rewrite Hasked, Hreq. by rewrite <- app_assoc.
  - rewrite (gathered_asks _ _ _ Hasks Hg), app_nil_r in Hperm.
    rewrite Hperm. clear. induction urls as [|u urls IH]; [done|].
    simpl. by rewrite IH.
Qed.

(** ** The summary *)

Lemma count_if_length (P : bool → bool) (results : list (str * bool)) :
  count_if P results = length (filter (λ r, P r.2 = true) results).
Proof.
  unfold count_if.
  induction (filter (λ r, P r.2 = true) results) as [|r rs IH]; [done|].
  rewrite fmap_cons. simpl. by rewrite IH.
Qed.

Lemma filter_failed (results : list (str * bool)) :
  filter (λ r, negb r.2 = true) results = filter (λ r, r.2 = false) results.
Proof.
  apply list_filter_iff. intros [url ok]. simpl. by destruct ok.
Qed.

Lemma length_succeeded (results : list (str * bool)) :
  length (filter (λ r, id r.2 = true) results)
  = length results - length (filter (λ r, r.2 = false) results).
Proof.
  unfold id. induction results as [|[url ok] rs IH]; [done|].
  rewrite !filter_cons. simpl.
  pose proof (length_filter (λ r : str * bool, r.2 = false) rs).
  destruct ok; simpl; lia.
Qed.

(** The summary gives the number of outcomes that are successes and the
    number that are failures, which add up to the number of outcomes; when
    there is a failure, and only then, it goes on with a heading and the
    failed addresses, in the order of the outcomes. *)
Theorem summary_lists_failures (E : env) (results : list (str * bool))
    (w : world) :
  let failed := filter (λ r, r.2 = false) results in
  run E (main_tail results) w
  = Some (tt,
          World (fs w)
            (stdout w
             ++ (lit "Downloaded: "
                 ++ str_of_nat (length results - length failed)
                 ++ lit ", Failed: " ++ str_of_nat (length failed))
                :: match failed with
                   | [] => []
                   | _ :: _ =>
                       lit "Failed URLs:"
                       :: ((λ r, lit "  - " ++ r.1) <$> failed)
                   end)
            (requests w) (permits w)).
Proof.
  intros failed. rewrite run_main_tail. unfold summary_lines.
  rewrite !count_if_length, filter_failed, length_succeeded.
  fold failed. destruct failed as [|r rs]; cbn [length].
  - by rewrite decide_False by lia.
  - by rewrite decide_True by lia.
Qed.

(** ** Edge cases of a run *)

Lemma schedule_no_task (E : env) (sched : list nat) (w : world) :
  schedule E sched ([], w) = ([], w).
Proof. induction sched as [|i sched IH]; [done|]. by rewrite schedule_cons. Qed.

(** When the sitemap gives no address, [main] ends normally under every
    schedule: it has made the output directory, asked for the sitemap and
    nothing else, and printed three lines, the counts all zero. *)
Theorem empty_sitemap_run (E : env) (sched : list nat) (w0 : world) :
  (mkdir false DOCS_DIR (fs w0)).1 = Ok tt → sitemap_result E = Ok [] →
  main E sched w0
  = Some (Ok tt,
          World (mkdir false DOCS_DIR (fs w0)).2
            (stdout w0
             ++ [lit "Fetching sitemap..."; lit "Found 0 English docs";
                 lit "Downloaded: 0, Failed: 0"])
            (requests w0 ++ [SITEMAP_URL]) CONCURRENT_REQUESTS).
Proof.
  intros Hmk Hsm. unfold main. rewrite run_main_head. unfold head_effect.
  destruct (mkdir false DOCS_DIR (fs w0)) as [[[]|e] f]; [|done].
  rewrite Hsm. cbn [spawn fmap list_fmap].
  rewrite schedule_no_task. cbn [gathered mapM mret option_ret].
  rewrite run_main_tail. cbn [fs stdout requests permits set_permits snd].
  by rewrite <- !app_assoc.
Qed.

Lemma empty_sitemap_run_witness :
  (mkdir false DOCS_DIR (fs fresh_world)).1 = Ok tt
  ∧ sitemap_result empty_env = Ok []
  ∧ main empty_env taking_turns fresh_world
    = Some (Ok tt,
            World (mkdir false DOCS_DIR (fs fresh_world)).2
              (stdout fresh_world
               ++ [lit "Fetching sitemap..."; lit "Found 0 English docs";
                   lit "Downloaded: 0, Failed: 0"])
              (requests fresh_world ++ [SITEMAP_URL]) CONCURRENT_REQUESTS).
Proof.
  split; [reflexivity|]. split; [reflexivity|].
  exact (empty_sitemap_run empty_env taking_turns fresh_world
           eq_refl eq_refl).
Defined.


Lemma run_requests_witness :
  let w3 := after_main offline_env taking_turns fresh_world in
  main offline_env taking_turns fresh_world = Some (Ok tt, w3)
  ∧ ∃ urls asked,
      sitemap_result offline_env = Ok urls
      ∧ requests w3 = requests fresh_world ++ SITEMAP_URL :: asked
      ∧ asked ≡ₚ markdown_url <$> urls.
Proof.
  assert (main offline_env taking_turns fresh_world
          = Some (Ok tt, after_main offline_env taking_turns fresh_world))
    as Hrun by (vm_compute; reflexivity).
  split; [exact Hrun|].
  exact (run_requests offline_env taking_turns fresh_world _ Hrun).
Defined.

(** A run that ends with an exception has printed nothing when making the
    output directory raised, and the one line [Fetching sitemap...] when the
    sitemap stage raised; it has asked for nothing or for the sitemap only,
    and the summary is never printed. *)
Theorem aborted_run_output (E : env) (sched : list nat) (w0 w1 : world)
    (e : exn) :
  main E sched w0 = Some (Raise e, w1) →
  ((mkdir false DOCS_DIR (fs w0)).1 = Raise e
   ∧ stdout w1 = stdout w0 ∧ requests w1 = requests w0)
  ∨ ((mkdir false DOCS_DIR (fs w0)).1 = Ok tt
     ∧ sitemap_result E = Raise e
     ∧ stdout w1 = stdout w0 ++ [lit "Fetching sitemap..."]
     ∧ requests w1 = requests w0 ++ [SITEMAP_URL]).
Proof.
  unfold main. rewrite run_main_head. unfold head_effect.
  destruct (mkdir false DOCS_DIR (fs w0)) as [[[]|e0] f].
  - destruct (sitemap_result E) as [urls|e1].
    + destruct (schedule E sched _) as [ts w2].
      destruct (gathered ts) as [results|]; [|done].
      by rewrite run_main_tail.
    + intros [= <- <-]. right. by repeat split.
  - intros [= <- <-]. left. by repeat split.
Qed.

Lemma aborted_run_output_witness :
  let w0 := World (docs_is_file []) [] [] 0 in
  let e := FileExistsError (lit "[Errno 17] File exists: 'docs'") in
  main offline_env [] w0 = Some (Raise e, w0)
  ∧ (((mkdir false DOCS_DIR (fs w0)).1 = Raise e
      ∧ stdout w0 = stdout w0 ∧ requests w0 = requests w0)
     ∨ ((mkdir false DOCS_DIR (fs w0)).1 = Ok tt
        ∧ sitemap_result offline_env = Raise e
        ∧ stdout w0 = stdout w0 ++ [lit "Fetching sitemap..."]
        ∧ requests w0 = requests w0 ++ [SITEMAP_URL])).
Proof.
  assert (main offline_env [] (World (docs_is_file []) [] [] 0)
          = Some (Raise (FileExistsError
                           (lit "[Errno 17] File exists: 'docs'")),
                  World (docs_is_file []) [] [] 0))
    as Hrun by (vm_compute; reflexivity).
  split; [exact Hrun|].
  exact (aborted_run_output offline_env [] _ _ _ Hrun).
Defined.

(** The filter does not merge repeated entries: an address that is kept
    comes out as many times as it stands in the sitemap. *)
Theorem repeated_entries_are_kept (root : Element) (url : str) :
  retained url = true →
  length (filter (λ u, u = url) (english_urls root))
  = length (filter (λ t, t = Some url) (loc_texts root)).
Proof.
  intros Hret. unfold english_urls, loc_texts. rewrite fold_visit_loc. simpl.
  induction (findall_descendants LOC_TAG root) as [|loc locs IH]; [done|].
  rewrite fmap_cons. cbn [omap list_omap]. rewrite (filter_cons _ (text loc)).
  destruct (text loc) as [u|]; cbn [omap list_omap].
  - rewrite (filter_cons _ u). destruct (decide (retained u = true)).
    + rewrite (filter_cons _ u). destruct (decide (u = url)) as [->|Hne].
      * rewrite decide_True by done. simpl. by rewrite IH.
      * by rewrite decide_False by congruence.
    + rewrite decide_False by congruence. done.
  - by rewrite decide_False.
Qed.

Lemma repeated_entries_are_kept_witness :
  let url := lit "https://example.com/docs/a" in
  let root := Elem (NS "urlset") None
                [url_entry "https://example.com/docs/a";
                 url_entry "https://example.com/docs/a"] in
  retained url = true
  ∧ length (filter (λ u, u = url) (english_urls root))
    = length (filter (λ t, t = Some url) (loc_texts root)).
Proof.
  split; [reflexivity|].
  exact (repeated_entries_are_kept _ (lit "https://example.com/docs/a")
           eq_refl).
Defined.

(** ** Where files go *)

Lemma last_piece_md (s : str) :
  lit ".md" `suffix_of` item_last (split [slash] (s ++ lit ".md")).
Proof.
  assert ([slash] ≠ []) as Hsep by done.
  destruct (find [slash] (s ++ lit ".md")) as [i|] eqn:Hf.
  - destruct (item_last_split_spec [slash] (s ++ lit ".md") Hsep)
      as [(pre & Hpre & Hmark) _].
    destruct Hmark as [pre' ->].
    { unfold contains. rewrite Hf. apply bool_decide_eq_true. eauto. }
    set (lastp := item_last (split [slash] (s ++ lit ".md"))) in *.
    apply (f_equal (@rev ascii)) in Hpre. rewrite !rev_app_distr in Hpre.
    simpl in Hpre.
    destruct (rev lastp) as [|a [|b [|c t]]] eqn:Hrev; simpl in Hpre;
      try (by injection Hpre).
    injection Hpre as <- <- <- _.
    apply (f_equal (@rev ascii)) in Hrev. rewrite rev_involutive in Hrev.
    rewrite Hrev. simpl. rewrite <- !app_assoc. by eexists.
  - rewrite item_last_split, Hf by done. by eexists.
Qed.

(** Every destination is a relative path below [docs] whose last segment
    ends in [.md]: no download writes to an absolute path or to a file
    without the suffix. *)
Theorem destination_is_markdown (url : str) :
  ∃ segs seg,
    doc_filepath url = (false, lit "docs" :: segs ++ [seg])
    ∧ lit ".md" `suffix_of` seg.
Proof.
  destruct (doc_filepath_spec url) as (a & b & rel & _ & _ & _ & ->).
  set (s := (if decide (rel = []) then lit "index" else rel)).
  pose proof (last_piece_md s) as Hmd.
  pose proof (split_from_nonempty (length (s ++ lit ".md")) [slash]
                (s ++ lit ".md")) as Hne.
  fold (split [slash] (s ++ lit ".md")) in Hne.
  unfold item_last in Hmd.
  destruct (split [slash] (s ++ lit ".md")) as [|p ps _] eqn:Hsplit
    using rev_ind; [done|].
  rewrite last_snoc in Hmd. simpl in Hmd.
  exists (filter (λ seg, seg ≠ [] ∧ seg ≠ lit ".") ps), p.
  split; [|done]. unfold Path. cbn [snd]. rewrite Hsplit.
  rewrite filter_app, filter_cons, filter_nil.
  rewrite decide_True; [done|].
  destruct Hmd as [t ->]. split.
  - by destruct t.
  - intros Heq. apply (f_equal length) in Heq.
    rewrite length_app in Heq. simpl in Heq. lia.
Qed.
